(** * A shallow embedding of the sequential SYCL implementation

    Source: [include/CL/implementation/sycl-implementation.hpp].

    The embedding follows the header top to bottom: the index/range algebra
    ([range], [id], the element-wise operators), the [nd_range] and [item]
    descriptors, the [buffer]/[accessor] memory view over Boost.MultiArray,
    the recursive iterator [ParallelForIterate] and the launch entry points.

    Conventions.
    - [intptr_t] values are integers of [Z]; an arithmetic result outside
      the 64-bit two's complement interval is undefined behaviour in C++.
    - A computation whose behaviour is undefined in C++ (signed overflow,
      division by zero, a vector subscript past the end, an index that
      fails the range assertion of Boost.MultiArray, a dangling pointer)
      evaluates to [None]; [Some x] is a defined result [x].
    - A member that the header cannot instantiate has no behaviour:
      [accessor::operator[](size_t)] on a view of two or more dimensions
      gives [None]; of [buffer(const T *, range)], which no element type
      instantiates, only the member initialisers are recorded.
    - The launches are those of the build without [_OPENMP]; with it the
      outer loop is an OpenMP loop and the order of the calls is not fixed.
    - A [range<Dimensions>] is a [std::vector<intptr_t>]: the template
      parameter does not constrain the number of stored components, so a
      range is a list and [Dimensions] is passed where the code uses it. *)

From stdpp Require Import base option list numbers gmap sorting.

Open Scope Z_scope.

(** ** Machine integers *)

Module Int.

Definition bits : Z := 64.
Definition INTPTR_MIN : Z := - 2 ^ (bits - 1).
Definition INTPTR_MAX : Z := 2 ^ (bits - 1) - 1.

Definition representable (z : Z) : bool :=
  (INTPTR_MIN <=? z) && (z <=? INTPTR_MAX).

(** The value of an arithmetic expression, defined when it fits. *)
Definition checked (z : Z) : option Z :=
  if representable z then Some z else None.

Definition add (a b : Z) : option Z := checked (a + b).
Definition sub (a b : Z) : option Z := checked (a - b).
Definition mul (a b : Z) : option Z := checked (a * b).

(** C++ [/] on signed integers truncates towards zero. *)
Definition div (a b : Z) : option Z :=
  if decide (b = 0) then None else checked (a ÷ b).

End Int.

(** ** [range], [id], [group] *)

Abbreviation range := (list Z).
Abbreviation id := (list Z).
Abbreviation group := (list Z).

(** [std::vector::operator[]] for writing: defined inside the vector only. *)
Definition vec_set (i : nat) (x : Z) (v : range) : option range :=
  if decide (i < length v)%nat then Some (<[i := x]> v) else None.

(** [range()]: a vector of [Dimensions] zeros. *)
Definition range_default (Dimensions : nat) : range := replicate Dimensions 0.

(** [get(index)]. *)
Definition get (r : range) (index : nat) : option Z := r !! index.

(** The loop shared by the three element-wise operators:
    [range<Dimensions> result; for (i = 0; i < Dimensions; i++) result[i] = a[i] op b[i];] *)
Definition elementwise (op : Z → Z → option Z)
    (Dimensions : nat) (a b : range) : option range :=
  foldl (λ (acc : option range) (i : nat),
           result ← acc;
           x ← a !! i;
           y ← b !! i;
           v ← op x y;
           vec_set i v result)
        (Some (range_default Dimensions)) (seq 0 Dimensions).

(** [operator /]: element-wise division with upper rounding,
    [(dividend[i] + divisor[i] - 1)/divisor[i]]. *)
Definition round_up_div (dividend divisor : Z) : option Z :=
  s ← Int.add dividend divisor;
  n ← Int.sub s 1;
  Int.div n divisor.

Definition range_div (Dimensions : nat) (dividend divisor : range) : option range :=
  elementwise round_up_div Dimensions dividend divisor.

(** [operator *] and [operator +]. *)
Definition range_mul (Dimensions : nat) (a b : range) : option range :=
  elementwise Int.mul Dimensions a b.

Definition range_add (Dimensions : nat) (a b : range) : option range :=
  elementwise Int.add Dimensions a b.

(** ** [nd_range] *)

Record nd_range := Build_nd_range {
  GlobalRange : range;
  LocalRange : range;
  Offset : id
}.

(** The default argument of the constructor, [{ 0, 0, 0 }]: a braced list of
    three zeros, whatever [dims] is; it initialises the vector with these
    three components. *)
Definition default_offset : id := [0; 0; 0].

(** [nd_range(global_size, local_size, offset = { 0, 0, 0 })]; an omitted
    third argument is [None]. *)
Definition make_nd_range (dims : nat) (global_size local_size : range)
    (offset : option id) : nd_range :=
  {| GlobalRange := global_size;
     LocalRange := local_size;
     Offset := default default_offset offset |}.

Definition get_global_range (r : nd_range) : range := GlobalRange r.
Definition get_local_range (r : nd_range) : range := LocalRange r.
Definition get_group_range (dims : nat) (r : nd_range) : option range :=
  range_div dims (GlobalRange r) (LocalRange r).
Definition get_offset (r : nd_range) : id := Offset r.

(** ** [item] *)

Record item := Build_item {
  GlobalIndex : id;
  LocalIndex : id;
  NDRange : nd_range
}.

(** [item(nd_range ndr) : NDRange(ndr) {}]; both indices are default ranges. *)
Definition make_item (dims : nat) (ndr : nd_range) : item :=
  {| GlobalIndex := range_default dims;
     LocalIndex := range_default dims;
     NDRange := ndr |}.

Definition get_global (i : item) : id := GlobalIndex i.
Definition get_local (i : item) : id := LocalIndex i.
Definition set_local (Index : id) (i : item) : item :=
  {| GlobalIndex := GlobalIndex i; LocalIndex := Index; NDRange := NDRange i |}.
Definition set_global (Index : id) (i : item) : item :=
  {| GlobalIndex := Index; LocalIndex := LocalIndex i; NDRange := NDRange i |}.

(** ** Storage

    Element storage is a heap of blocks; a [T*] is a block and an offset
    into it.  Reading or writing outside a live block is undefined. *)

Record pointer := Build_pointer {
  block : nat;
  offset : Z
}.

Definition pointer_add (p : pointer) (n : Z) : pointer :=
  {| block := block p; offset := offset p + n |}.

(** ** Boost.MultiArray views

    [boost::multi_array_ref<T, dimensions>] as the header uses it: a base
    pointer, the extents and the strides of the default C storage order,
    index bases all zero.  The extents are kept as the integers they were
    given as. *)

Record multi_array_ref := Build_multi_array_ref {
  base_ : pointer;
  extent_list_ : list Z;
  stride_list_ : list Z
}.

Definition num_elements (extents : list Z) : Z := foldr Z.mul 1 extents.

(** Strides of the C storage order: the last dimension is contiguous. *)
Fixpoint compute_strides (extents : list Z) : list Z :=
  match extents with
  | [] => []
  | _ :: rest => num_elements rest :: compute_strides rest
  end.

(** [multi_array_ref(base, extents)]: the first [dimensions] components of
    the extent collection are read. *)
Definition make_multi_array_ref (dimensions : nat) (base : pointer)
    (extents : range) : option multi_array_ref :=
  if decide (dimensions ≤ length extents)%nat then
    let shape := take dimensions extents in
    Some {| base_ := base;
            extent_list_ := shape;
            stride_list_ := compute_strides shape |}
  else None.

(** [operator()(IndexList)]: every index is checked against its extent and
    the offsets [indices[n] * strides[n]] are summed over the dimensions of
    the view; further components of the index collection are not read. *)
Fixpoint element_offset (indices extents strides : list Z) {struct extents}
    : option Z :=
  match extents, strides with
  | [], _ => Some 0
  | e :: extents', st :: strides' =>
      match indices with
      | i :: indices' =>
          if decide (0 ≤ i < e) then
            rest ← element_offset indices' extents' strides';
            Some (i * st + rest)
          else None
      | [] => None
      end
  | _ :: _, [] => None
  end.

Definition element (a : multi_array_ref) (indices : list Z) : option pointer :=
  pointer_add (base_ a) <$>
    element_offset indices (extent_list_ a) (stride_list_ a).

(** [operator[](index)]: one subscript selects along the first dimension.
    On a one-dimensional view the result is the element; otherwise it is
    the sub-array view of the remaining dimensions. *)
Inductive reference :=
  | Element (p : pointer)
  | SubArray (a : multi_array_ref).

Definition subscript (a : multi_array_ref) (idx : Z) : option reference :=
  match extent_list_ a, stride_list_ a with
  | e :: extents', st :: strides' =>
      if decide (0 ≤ idx < e) then
        let newbase := pointer_add (base_ a) (idx * st) in
        Some (match extents' with
              | [] => Element newbase
              | _ :: _ => SubArray {| base_ := newbase;
                                      extent_list_ := extents';
                                      stride_list_ := strides' |}
              end)
      else None
  | _, _ => None
  end.

(** Chained subscripts [a[i0][i1]...]. *)
Fixpoint subscripts (x : reference) (indices : list Z) : option reference :=
  match indices with
  | [] => Some x
  | i :: indices' =>
      match x with
      | SubArray a => y ← subscript a i; subscripts y indices'
      | Element _ => None
      end
  end.

(** ** [accessor] *)

Record accessor := Build_accessor {
  Array : multi_array_ref
}.

(** [auto &operator[](size_t Index)] returns [Array[Index]] by reference.
    On a one-dimensional view Boost gives a reference to the element.  On
    a view of two or more dimensions Boost gives the sub-array by value,
    which [auto &] cannot bind: the operator cannot be instantiated there,
    no call exists and no reference is given. *)
Definition accessor_at_size_t (acc : accessor) (Index : Z) : option reference :=
  match extent_list_ (Array acc) with
  | [_] => subscript (Array acc) Index
  | _ => None
  end.

(** [operator[](id Index)] is [Array(Index)]. *)
Definition accessor_at_id (acc : accessor) (Index : id) : option pointer :=
  element (Array acc) Index.

(** [operator[](item Index)] is [Array(Index.get_global())]. *)
Definition accessor_at_item (acc : accessor) (Index : item) : option pointer :=
  element (Array acc) (get_global Index).

(** ** [buffer] *)

Record buffer := Build_buffer {
  Allocation : multi_array_ref;
  Access : multi_array_ref;
  (** [None]: the member was never given a value. *)
  ReadOnly : option bool
}.

(** [accessor(buffer &targetBuffer) : Array(targetBuffer.Access)]. *)
Definition make_accessor (targetBuffer : buffer) : accessor :=
  {| Array := Access targetBuffer |}.

Definition get_access (b : buffer) : accessor := make_accessor b.

Section Memory.

Context {T : Type}.

(** The value-initialised element [T()]. *)
Variable T_default : T.

Definition load (p : pointer) (h : gmap nat (list T)) : option T :=
  if decide (0 ≤ offset p) then
    cells ← h !! block p;
    cells !! Z.to_nat (offset p)
  else None.

Definition store (p : pointer) (v : T) (h : gmap nat (list T))
    : option (gmap nat (list T)) :=
  cells ← h !! block p;
  if decide (0 ≤ offset p < Z.of_nat (length cells)) then
    Some (<[block p := <[Z.to_nat (offset p) := v]> cells]> h)
  else None.

(** A new block holding [cells]; its address is not live before. *)
Definition allocate (cells : list T) (h : gmap nat (list T))
    : pointer * gmap nat (list T) :=
  let b := fresh (dom h) in
  ({| block := b; offset := 0 |}, <[b := cells]> h).

(** The [n] consecutive elements starting at [p]. *)
Definition load_n (p : pointer) (n : Z) (h : gmap nat (list T)) : option (list T) :=
  mapM (λ i, load (pointer_add p i) h) (seqZ 0 n).

(** [boost::multi_array<T, dimensions>(extents)]: owned storage of the
    given shape, value-initialised.  An extent below zero asks for more
    elements than can be allocated. *)
Definition multi_array_of_extents (dimensions : nat) (extents : range)
    (h : gmap nat (list T)) : option (multi_array_ref * gmap nat (list T)) :=
  if decide (dimensions ≤ length extents)%nat then
    let shape := take dimensions extents in
    if decide (Forall (λ e, 0 ≤ e) shape) then
      let '(p, h') :=
        allocate (replicate (Z.to_nat (num_elements shape)) T_default) h in
      Some ({| base_ := p; extent_list_ := shape;
               stride_list_ := compute_strides shape |}, h')
    else None
  else None.

(** The default-constructed [multi_array]: every extent zero, no element. *)
Definition multi_array_empty (dimensions : nat) (h : gmap nat (list T))
    : multi_array_ref * gmap nat (list T) :=
  let '(p, h') := allocate [] h in
  ({| base_ := p; extent_list_ := replicate dimensions 0;
      stride_list_ := compute_strides (replicate dimensions 0) |}, h').

(** [boost::multi_array<T, dimensions>(const multi_array_ref &rhs)]: owned
    storage of the shape of [rhs], filled with the elements of [rhs]. *)
Definition multi_array_of_ref (rhs : multi_array_ref) (h : gmap nat (list T))
    : option (multi_array_ref * gmap nat (list T)) :=
  cells ← load_n (base_ rhs) (num_elements (extent_list_ rhs)) h;
  let '(p, h') := allocate cells h in
  Some ({| base_ := p; extent_list_ := extent_list_ rhs;
           stride_list_ := stride_list_ rhs |}, h').

(** [multi_array::assign(begin, end)]: elements are copied from the input
    sequence into the storage, in order, until either is exhausted. *)
Fixpoint assign_from (out : pointer) (input : list T) (room : nat)
    (h : gmap nat (list T)) : option (gmap nat (list T)) :=
  match input, room with
  | v :: input', S room' =>
      h' ← store out v h;
      assign_from (pointer_add out 1) input' room' h'
  | _, _ => Some h
  end.

(** [buffer(range<dimensions> r)]. *)
Definition buffer_of_range (dimensions : nat) (r : range)
    (h : gmap nat (list T)) : option (buffer * gmap nat (list T)) :=
  '(a, h') ← multi_array_of_extents dimensions r h;
  Some ({| Allocation := a; Access := a; ReadOnly := Some false |}, h').

(** [buffer(T *host_data, range<dimensions> r)]. *)
Definition buffer_of_host (dimensions : nat) (host_data : pointer) (r : range)
    (h : gmap nat (list T)) : option (buffer * gmap nat (list T)) :=
  let '(a, h') := multi_array_empty dimensions h in
  view ← make_multi_array_ref dimensions host_data r;
  Some ({| Allocation := a; Access := view; ReadOnly := Some false |}, h').

(** [buffer(const T *host_data, range<dimensions> r)]: the member
    initialisers as they are written, [Access(host_data, r)] and
    [ReadOnly(true)].  The view type is [multi_array_ref<T, dimensions>],
    whose constructor takes a [T *], so the header cannot instantiate this
    constructor from a [const T *]; the definition serves to read off the
    flag that the initialiser list names. *)
Definition buffer_of_const_host (dimensions : nat) (host_data : pointer)
    (r : range) (h : gmap nat (list T)) : option (buffer * gmap nat (list T)) :=
  let '(a, h') := multi_array_empty dimensions h in
  view ← make_multi_array_ref dimensions host_data r;
  Some ({| Allocation := a; Access := view; ReadOnly := Some true |}, h').

(** [buffer(T *start_iterator, T *end_iterator)]: one-dimensional.  The two
    iterators point into one live block; [ReadOnly] has no initialiser and
    the body does not assign it. *)
Definition buffer_of_iterators (start_iterator end_iterator : pointer)
    (h : gmap nat (list T)) : option (buffer * gmap nat (list T)) :=
  if decide (block start_iterator = block end_iterator) then
    let distance := offset end_iterator - offset start_iterator in
    '(a, h1) ← multi_array_of_extents 1 [distance] h;
    input ← load_n start_iterator distance h1;
    h2 ← assign_from (base_ a) input (Z.to_nat (num_elements (extent_list_ a))) h1;
    Some ({| Allocation := a; Access := a; ReadOnly := None |}, h2)
  else None.

(** [buffer(buffer<T, dimensions> &b)]. *)
Definition buffer_copy (b : buffer) (h : gmap nat (list T))
    : option (buffer * gmap nat (list T)) :=
  '(a, h') ← multi_array_of_ref (Access b) h;
  Some ({| Allocation := a; Access := a; ReadOnly := Some false |}, h').

(** Reading and writing the element an accessor form refers to. *)
Definition read_at_id (acc : accessor) (Index : id) (h : gmap nat (list T))
    : option T :=
  p ← accessor_at_id acc Index; load p h.

Definition write_at_id (acc : accessor) (Index : id) (v : T)
    (h : gmap nat (list T)) : option (gmap nat (list T)) :=
  p ← accessor_at_id acc Index; store p v h.

Definition read_at_item (acc : accessor) (Index : item) (h : gmap nat (list T))
    : option T :=
  p ← accessor_at_item acc Index; load p h.

Definition write_at_item (acc : accessor) (Index : item) (v : T)
    (h : gmap nat (list T)) : option (gmap nat (list T)) :=
  p ← accessor_at_item acc Index; store p v h.

(** [acc[i]] on a one-dimensional accessor denotes an element. *)
Definition read_at_size_t (acc : accessor) (Index : Z) (h : gmap nat (list T))
    : option T :=
  x ← accessor_at_size_t acc Index;
  match x with Element p => load p h | SubArray _ => None end.


End Memory.

(** ** [ParallelForIterate]

    The constructor of [ParallelForIterate<level, Range, F, Id>] receives
    three references: the range [r], the functor [f] and the index [index].
    The index is one mutable object for the whole recursion, and the functor
    may reach it again through its own captures; the state [St] holds
    whatever the references lead to, and [index_get]/[index_set] are the
    reference to the index inside it. *)

Section Iterate.

Context {St : Type}.

(** [Range::dimensionality]. *)
Variable dimensionality : nat.
Variable r : range.
Variable index_get : St → id.
Variable index_set : id → St → St.
Variable f : id → St → option St.

(** [for (_sycl_index = first; _sycl_index < _sycl_end; _sycl_index++) body],
    entered with [count] iterations left; [_sycl_index] stays below
    [_sycl_end], so the increment never overflows. *)
Fixpoint for_index (count : nat) (_sycl_index : Z)
    (body : Z → St → option St) (s : St) : option St :=
  match count with
  | O => Some s
  | S count' =>
      s' ← body _sycl_index s;
      for_index count' (_sycl_index + 1) body s'
  end.

Fixpoint ParallelForIterate (level : nat) (s : St) : option St :=
  match level with
  | O =>
      (* the specialisation for level 0: f(index) *)
      f (index_get s) s
  | S level' =>
      _sycl_end ← r !! (dimensionality - level)%nat;
      for_index (Z.to_nat _sycl_end) 0
        (λ _sycl_index s,
           (* index[Range::dimensionality - level] = _sycl_index *)
           index ← vec_set (dimensionality - level) _sycl_index (index_get s);
           ParallelForIterate level' (index_set index s))
        s
  end.

End Iterate.

(** ** [parallel_for] over a [range], sequential build

    The branch compiled without [_OPENMP].  The kernel takes the [id] by
    value and acts on the state [K] it has captured. *)

Definition parallel_for {K : Type} (Dimensions : nat) (r : range)
    (f : id → K → K) (k : K) : option K :=
  let index := range_default Dimensions in
  snd <$>
    ParallelForIterate Dimensions r
      (λ s : id * K, s.1) (λ i s, (i, s.2))
      (λ i s, Some (s.1, f i s.2))
      Dimensions (index, k).

(** ** [parallel_for] over an [nd_range]

    The locals of the function that the two lambdas capture by reference,
    with the state of the user kernel.  The trace output of [display()] on
    [std::clog] is left out. *)

Record launch_state (K : Type) := Build_launch_state {
  Index : item; Group : id; Local : id;
  kernel_state : K
}.

Arguments Build_launch_state {K}.
Arguments Index {K}.
Arguments Group {K}.
Arguments Local {K}.
Arguments kernel_state {K}.

Section GroupedLaunch.

Context {K : Type}.
Variable Dimensions : nat.
Variable f : item → K → K.
Variable GroupRange : range.
Variable LocalRange : range.

Definition with_Group (g : id) (s : launch_state K) : launch_state K :=
  {| Index := Index s; Group := g; Local := Local s;
     kernel_state := kernel_state s |}.

Definition with_Local (l : id) (s : launch_state K) : launch_state K :=
  {| Index := Index s; Group := Group s; Local := l;
     kernel_state := kernel_state s |}.

(** [Index.set_local(Local); Index.set_global(Local + LocalRange*Group); f(Index);]
    The parameter [L] is not used by the body. *)
Definition reconstructItem (L : id) (s : launch_state K)
    : option (launch_state K) :=
  let Index1 := set_local (Local s) (Index s) in
  scaled ← range_mul Dimensions LocalRange (Group s);
  global ← range_add Dimensions (Local s) scaled;
  let Index2 := set_global global Index1 in
  Some {| Index := Index2; Group := Group s; Local := Local s;
          kernel_state := f Index2 (kernel_state s) |}.

(** The parameter [G] is not used by the body either. *)
Definition iterateInWorkGroup (G : id) (s : launch_state K)
    : option (launch_state K) :=
  ParallelForIterate Dimensions LocalRange Local with_Local
    reconstructItem Dimensions s.

Definition iterate_groups (s : launch_state K) : option (launch_state K) :=
  ParallelForIterate Dimensions GroupRange Group with_Group
    iterateInWorkGroup Dimensions s.

End GroupedLaunch.

Definition parallel_for_nd {K : Type} (Dimensions : nat) (r : nd_range)
    (f : item → K → K) (k : K) : option K :=
  let Index := make_item Dimensions r in
  let Group := range_default Dimensions in
  GroupRange ← get_group_range Dimensions r;
  let Local := range_default Dimensions in
  let LocalRange := get_local_range r in
  kernel_state <$>
    iterate_groups Dimensions f GroupRange LocalRange
      {| Index := Index; Group := Group; Local := Local; kernel_state := k |}.

(** ** The overload with a program, and the two work-group entry points

    [parallel_for(Range r, Program p, F f)] is a template over [Range]; the
    call in its body resolves to one of the two launches above. *)

Class Launch (Range Arg : Type) :=
  launch : ∀ {K : Type}, nat → Range → (Arg → K → K) → K → option K.

#[export] Instance range_Launch : Launch range id := @parallel_for.
#[export] Instance nd_range_Launch : Launch nd_range item := @parallel_for_nd.

Definition parallel_for_program {Range Arg Program K : Type} `{!Launch Range Arg}
    (Dimensions : nat) (r : Range) (p : Program) (f : Arg → K → K) (k : K)
    : option K :=
  launch Dimensions r f k.

(** Both bodies are empty: the state the caller can reach is returned as it
    was received, whatever the functor is. *)
Definition parallel_for_workgroup {Range F W : Type} (r : Range) (f : F) (w : W)
    : option W := Some w.

Definition parallel_for_workitem {Range F W : Type} (r : Range) (f : F) (w : W)
    : option W := Some w.

(** ** Reference definitions used by the statements *)

(** Every coordinate of the box [[0,S0) × … × [0,S(D-1))], first dimension
    slowest. *)
Fixpoint coordinates (sizes : list Z) : list (list Z) :=
  match sizes with
  | [] => [[]]
  | n :: sizes' => i ← seqZ 0 n; (i ::.) <$> coordinates sizes'
  end.

Definition in_box (c sizes : list Z) : Prop :=
  Forall2 (λ ci si, 0 ≤ ci < si) c sizes.

Definition product (sizes : list Z) : Z := foldr Z.mul 1 sizes.

(** The ceiling of the rational [a/b] for [b > 0]: the least integer [q]
    with [a ≤ q * b]. *)
Definition ceil_div (a b : Z) : Z := - ((- a) `div` b).

(** The offset of coordinate [c] in the row-major flattening of [shape]. *)
Definition row_major_offset (shape c : list Z) : Z :=
  foldl (λ acc ec, acc * ec.1 + ec.2) 0 (zip shape c).

(** The items of a grouped launch, group by group. *)
Definition nd_items (r : nd_range) (group_count : list Z) : list item :=
  G ← coordinates group_count;
  L ← coordinates (LocalRange r);
  [ {| GlobalIndex := zip_with Z.add L (zip_with Z.mul (LocalRange r) G);
       LocalIndex := L;
       NDRange := r |} ].

(** A view laid out in the C storage order, as every constructor of
    Boost.MultiArray used by the header builds it. *)
Definition c_storage_order (a : multi_array_ref) : Prop :=
  stride_list_ a = compute_strides (extent_list_ a).

(** The storage a view describes is live: its base points into a block
    that holds all the elements of the shape. *)
Definition live {T : Type} (a : multi_array_ref) (h : gmap nat (list T)) : Prop :=
  ∃ cells, h !! block (base_ a) = Some cells ∧
           Forall (λ e, 0 ≤ e) (extent_list_ a) ∧
           0 ≤ offset (base_ a) ∧
           offset (base_ a) + num_elements (extent_list_ a) ≤ Z.of_nat (length cells).

(** The element [p] can be reached through the accessor: by an [id], by
    the global coordinate of an [item], or by integer subscripts. *)
Definition accessor_refers (acc : accessor) (p : pointer) : Prop :=
  (∃ Index : list Z, accessor_at_id acc Index = Some p) ∨
  (∃ Index : item, accessor_at_item acc Index = Some p) ∨
  (∃ indices : list Z, subscripts (SubArray (Array acc)) indices = Some (Element p)).

(** ** Further members of the header *)

(** [access::mode] and [access::target] with their enumerator values: the
    first one is given, the following count up from it. *)
Module access.

Inductive mode := read | write | atomic | read_write | discard_read_write.

Definition mode_value (m : mode) : Z :=
  match m with
  | read => 42
  | write => 43
  | atomic => 44
  | read_write => 45
  | discard_read_write => 46
  end.

Inductive target :=
  | global_buffer | constant_buffer | local | image | host_buffer
  | host_image | image_array | cl_buffer | cl_image.

Definition target_value (t : target) : Z :=
  match t with
  | global_buffer => 2014
  | constant_buffer => 2015
  | local => 2016
  | image => 2017
  | host_buffer => 2018
  | host_image => 2019
  | image_array => 2020
  | cl_buffer => 2021
  | cl_image => 2022
  end.

End access.

(** The conversion of an [intptr_t] to the [int] that the indexed getters
    of [item] return: the value modulo [2^32], in the 32-bit two's
    complement interval. *)
Definition to_int (z : Z) : Z := (z + 2 ^ 31) `mod` 2 ^ 32 - 2 ^ 31.

(** [std::vector::operator[]] for reading with an [int] subscript: the
    subscript is converted to the unsigned size type, so a negative one is
    past the end. *)
Definition vec_get (v : range) (i : Z) : option Z :=
  if decide (0 ≤ i) then v !! Z.to_nat i else None.

(** [int get_global(int dimension)] and [int get_local(int dimension)]. *)
Definition get_global_at (i : item) (dimension : Z) : option Z :=
  to_int <$> vec_get (GlobalIndex i) dimension.

Definition get_local_at (i : item) (dimension : Z) : option Z :=
  to_int <$> vec_get (LocalIndex i) dimension.

(** [item::get_local_range()] and [item::get_global_range()]. *)
Definition item_get_local_range (i : item) : range :=
  get_local_range (NDRange i).

Definition item_get_global_range (i : item) : range :=
  get_global_range (NDRange i).

(** [item(range global_size, range local_size) : NDRange(global_size, local_size) {}]. *)
Definition make_item_of_sizes (dims : nat) (global_size local_size : range)
    : item :=
  {| GlobalIndex := range_default dims;
     LocalIndex := range_default dims;
     NDRange := make_nd_range dims global_size local_size None |}.

(** The lexicographic order on coordinates, first dimension most
    significant. *)
Fixpoint lex_lt (a b : list Z) : Prop :=
  match a, b with
  | x :: a', y :: b' => x < y ∨ (x = y ∧ lex_lt a' b')
  | _, _ => False
  end.

(** * Properties *)

(** ** Machine integers and the element-wise operators *)

Lemma checked_Some z :
  Int.INTPTR_MIN ≤ z ≤ Int.INTPTR_MAX → Int.checked z = Some z.
Proof.
  intros [H1 H2]. unfold Int.checked, Int.representable.
  apply Z.leb_le in H1, H2. by rewrite H1, H2.
Qed.

Lemma INTPTR_MIN_neg : Int.INTPTR_MIN < 0.
Proof. reflexivity. Qed.

Lemma INTPTR_MAX_pos : 0 < Int.INTPTR_MAX.
Proof. reflexivity. Qed.

Lemma vec_set_Some i x v :
  (i < length v)%nat → vec_set i x v = Some (<[i := x]> v).
Proof. intros. unfold vec_set. by rewrite decide_True. Qed.

(** After [k] rounds of the loop the first [k] slots hold the results and
    the others still hold the zeros of the default range. *)
Lemma elementwise_prefix op (g : Z → Z → Z) D (a b : range) k :
  length a = D → length b = D →
  Forall2 (λ x y, op x y = Some (g x y)) a b →
  (k ≤ D)%nat →
  foldl (λ (acc : option range) (i : nat),
           result ← acc; x ← a !! i; y ← b !! i; v ← op x y;
           vec_set i v result)
        (Some (range_default D)) (seq 0 k)
  = Some (zip_with g (take k a) (take k b) ++ replicate (D - k) 0).
Proof.
  intros Ha Hb Hop. induction k as [|k IH]; intros Hk.
  - simpl. by rewrite Nat.sub_0_r.
  - rewrite seq_S, foldl_app, IH by lia. simpl.
    destruct (lookup_lt_is_Some_2 a k) as [x Hx]; [lia|].
    destruct (lookup_lt_is_Some_2 b k) as [y Hy]; [lia|].
    rewrite Hx, Hy. simpl.
    rewrite (Forall2_lookup_lr _ _ _ _ _ _ Hop Hx Hy). simpl.
    assert (Hlen : length (zip_with g (take k a) (take k b)) = k).
    { rewrite length_zip_with, !length_take. lia. }
    rewrite vec_set_Some by (rewrite length_app, length_replicate; lia).
    f_equal.
    rewrite (take_S_r a k x), (take_S_r b k y) by done.
    rewrite zip_with_app by (rewrite !length_take; lia).
    rewrite <- app_assoc. simpl.
    replace (D - k)%nat with (S (D - S k)) by lia. simpl.
    rewrite insert_app_r_alt by lia.
    by rewrite Hlen, Nat.sub_diag.
Qed.

Lemma elementwise_zip_with op (g : Z → Z → Z) D (a b : range) :
  length a = D → length b = D →
  Forall2 (λ x y, op x y = Some (g x y)) a b →
  elementwise op D a b = Some (zip_with g a b).
Proof.
  intros Ha Hb Hop. unfold elementwise.
  rewrite (elementwise_prefix op g D a b D) by (done || lia).
  rewrite Nat.sub_diag, app_nil_r.
  by rewrite <- Ha, firstn_all, Ha, <- Hb, firstn_all.
Qed.

Lemma ceil_div_bounds a b :
  0 < b → b * (ceil_div a b - 1) < a ≤ b * ceil_div a b.
Proof.
  intros Hb. unfold ceil_div.
  pose proof (Z.mul_div_le (- a) b Hb).
  pose proof (Z.mul_succ_div_gt (- a) b Hb). lia.
Qed.

Lemma quot_round_up_ceil g l :
  0 ≤ g → 0 < l → (g + l - 1) ÷ l = ceil_div g l.
Proof.
  intros Hg Hl. rewrite Z.quot_div_nonneg by lia. unfold ceil_div.
  pose proof (Z.mul_div_le (g + l - 1) l Hl).
  pose proof (Z.mul_succ_div_gt (g + l - 1) l Hl).
  symmetry. apply Z.opp_inj_wd. rewrite Z.opp_involutive.
  symmetry. apply (Z.div_unique (- g) l _ (l * ((g + l - 1) `div` l) - g)); lia.
Qed.

Lemma quot_bounded a l :
  0 < l → (0 ≤ a → 0 ≤ a ÷ l ≤ a) ∧ (a ≤ 0 → a ≤ a ÷ l ≤ 0).
Proof.
  intros Hl. split; intros Ha.
  - rewrite Z.quot_div_nonneg by lia.
    pose proof (Z.div_pos a l ltac:(lia) Hl).
    pose proof (Z.div_le_upper_bound a l a Hl ltac:(nia)). lia.
  - replace a with (- (- a)) at 2 3 by lia.
    rewrite Z.quot_opp_l, Z.quot_div_nonneg by lia.
    pose proof (Z.div_pos (- a) l ltac:(lia) Hl).
    pose proof (Z.div_le_upper_bound (- a) l (- a) Hl ltac:(nia)). lia.
Qed.

(** The operator computes its formula whenever the two intermediate sums
    are representable and the divisor is positive. *)
Lemma round_up_div_formula g l :
  0 < l → Int.INTPTR_MIN ≤ g + l - 1 → g + l ≤ Int.INTPTR_MAX →
  round_up_div g l = Some ((g + l - 1) ÷ l).
Proof.
  intros Hl Hmin Hmax. pose proof INTPTR_MIN_neg.
  unfold round_up_div, Int.add, Int.sub, Int.div.
  rewrite checked_Some by lia. simpl.
  rewrite checked_Some by lia. simpl.
  rewrite decide_False by lia. apply checked_Some.
  pose proof INTPTR_MAX_pos.
  destruct (quot_bounded (g + l - 1) l Hl) as [Hpos Hneg].
  destruct (decide (0 ≤ g + l - 1)); [specialize (Hpos ltac:(lia))
                                    |specialize (Hneg ltac:(lia))]; lia.
Qed.

Lemma round_up_div_ceil g l :
  0 ≤ g → 0 < l → g + l ≤ Int.INTPTR_MAX →
  round_up_div g l = Some (ceil_div g l).
Proof.
  intros Hg Hl Hmax. pose proof INTPTR_MIN_neg.
  rewrite round_up_div_formula by lia. by rewrite quot_round_up_ceil.
Qed.

Lemma zip_with_Forall2_ext {A B C} (f g : A → B → C) (l : list A) (k : list B) :
  Forall2 (λ x y, f x y = g x y) l k → zip_with f l k = zip_with g l k.
Proof. induction 1; simpl; congruence. Qed.

(** ** The coordinates of a box *)

Lemma elem_of_coordinates c sizes : c ∈ coordinates sizes ↔ in_box c sizes.
Proof.
  unfold in_box. revert c. induction sizes as [|n sizes IH]; intros c; simpl.
  - rewrite list_elem_of_singleton. split.
    + intros ->. constructor.
    + by intros ->%Forall2_nil_inv_r.
  - rewrite list_elem_of_bind. split.
    + intros (i & Hc & Hi). apply list_elem_of_fmap in Hc as (c' & -> & Hc').
      apply elem_of_seqZ in Hi. constructor; [lia|]. by apply IH.
    + intros (i & c' & Hi & Hc' & ->)%Forall2_cons_inv_r.
      exists i. split.
      * apply list_elem_of_fmap. exists c'. split; [done|]. by apply IH.
      * apply elem_of_seqZ. lia.
Qed.

Lemma in_box_length c sizes : in_box c sizes → length c = length sizes.
Proof. apply Forall2_length. Qed.

Lemma NoDup_coordinates sizes : NoDup (coordinates sizes).
Proof.
  induction sizes as [|n sizes IH]; simpl.
  - apply NoDup_singleton.
  - apply NoDup_bind.
    + intros i j c _ _ (c1 & -> & _)%list_elem_of_fmap (c2 & Heq & _)%list_elem_of_fmap.
      congruence.
    + intros i _. apply (NoDup_fmap_2 _). apply IH.
    + apply NoDup_seqZ.
Qed.

Lemma length_bind_constant {A B} (k : A → list B) (l : list A) m :
  (∀ x, length (k x) = m) → length (l ≫= k) = (length l * m)%nat.
Proof.
  intros Hk. induction l as [|x l IH]; [done|].
  rewrite bind_cons, length_app, IH, Hk. simpl. lia.
Qed.

Lemma length_coordinates sizes :
  Forall (λ n, 0 ≤ n) sizes →
  Z.of_nat (length (coordinates sizes)) = product sizes.
Proof.
  induction 1 as [|n sizes Hn _ IH]; [done|]. simpl.
  rewrite (length_bind_constant _ _ (length (coordinates sizes)))
    by (intros; apply length_fmap).
  rewrite length_seqZ, Nat2Z.inj_mul, Z2Nat.id, IH by lia. done.
Qed.

Lemma coordinates_zero sizes : 0 ∈ sizes → coordinates sizes = [].
Proof.
  induction sizes as [|n sizes IH]; [by intros ?%elem_of_nil|].
  intros [<- | Hin]%elem_of_cons; simpl.
  - done.
  - rewrite IH by done. clear. induction (seqZ 0 n) as [|i l IHl]; [done|].
    by rewrite bind_cons, IHl.
Qed.

(** ** The recursive iterator *)

Lemma foldl_bind {A B C} (h : A → B → A) (k : C → list B) (l : list C) (a : A) :
  foldl h a (l ≫= k) = foldl (λ a x, foldl h a (k x)) a l.
Proof.
  revert a. induction l as [|x l IH]; intros a; [done|].
  by rewrite bind_cons, foldl_app, IH.
Qed.

Lemma foldl_pointwise {A B} (h1 h2 : A → B → A) (l : list B) (a : A) :
  (∀ a x, h1 a x = h2 a x) → foldl h1 a l = foldl h2 a l.
Proof.
  intros Hh. revert a. induction l as [|x l IH]; intros a; [done|].
  simpl. by rewrite Hh, IH.
Qed.

Lemma seqZ_to_nat m n : seqZ m (Z.of_nat (Z.to_nat n)) = seqZ m n.
Proof.
  destruct (decide (0 ≤ n)).
  - by rewrite Z2Nat.id.
  - by rewrite !seqZ_nil by lia.
Qed.

Lemma take_S_insert {A} (v : list A) (d : nat) (i : A) :
  (d < length v)%nat → take (S d) (<[d := i]> v) = take d v ++ [i].
Proof.
  intros Hd.
  rewrite (take_S_r _ _ i) by (by apply list_lookup_insert_eq).
  by rewrite take_insert_ge by lia.
Qed.

(** The loop of one level, for a body that keeps an invariant [I] between
    the state and an abstract value updated by [G]. *)
Lemma for_index_fold {St A} (I : St → A → Prop) (body : Z → St → option St)
    (G : Z → A → A) (e : Z) :
  (∀ i s a, 0 ≤ i < e → I s a → ∃ s', body i s = Some s' ∧ I s' (G i a)) →
  ∀ n i0 s a, 0 ≤ i0 → Z.of_nat n ≤ Z.max 0 (e - i0) → I s a →
    ∃ s', for_index n i0 body s = Some s' ∧
          I s' (foldl (λ a i, G i a) a (seqZ i0 (Z.of_nat n))).
Proof.
  intros Hbody. induction n as [|n IH]; intros i0 s a Hi0 Hn HI.
  - exists s. by split.
  - destruct (Hbody i0 s a) as (s1 & Hs1 & HI1); [lia|done|].
    destruct (IH (i0 + 1) s1 (G i0 a)) as (s2 & Hs2 & HI2); [lia|lia|done|].
    exists s2. simpl. rewrite Hs1. simpl. split; [done|].
    rewrite seqZ_cons by lia. simpl.
    by replace (Z.pred (Z.of_nat (S n))) with (Z.of_nat n) by lia.
Qed.

Section IterateSpec.

Context {St A : Type}.
Variable D : nat.
Variable r : list Z.
Variable index_get : St → list Z.
Variable index_set : list Z → St → St.
Variable f : list Z → St → option St.

(** What the functor does, seen on an abstract value: [R] relates the
    state to it and [g c] is the effect of one call at coordinate [c]. *)
Variable R : St → A → Prop.
Variable g : list Z → A → A.

Hypothesis r_length : length r = D.
Hypothesis get_set : ∀ i s, index_get (index_set i s) = i.
Hypothesis set_R : ∀ i s a, R s a → R (index_set i s) a.
Hypothesis f_step : ∀ c s a,
  in_box c r → index_get s = c → R s a →
  ∃ s', f c s = Some s' ∧ index_get s' = c ∧ R s' (g c a).

(** At [level], the slots before [D - level] are fixed; the functor is
    called once for every way to fill the others, in order, with the whole
    index filled in. *)
Lemma ParallelForIterate_spec level : ∀ s a,
  (level ≤ D)%nat →
  length (index_get s) = D →
  in_box (take (D - level) (index_get s)) (take (D - level) r) →
  R s a →
  ∃ s', ParallelForIterate D r index_get index_set f level s = Some s' ∧
        length (index_get s') = D ∧
        take (D - level) (index_get s') = take (D - level) (index_get s) ∧
        R s' (foldl (λ a q, g (take (D - level) (index_get s) ++ q) a) a
                (coordinates (drop (D - level) r))).
Proof.
  induction level as [|l IH]; intros s a Hl Hlen Hbox HR.
  - rewrite Nat.sub_0_r in *.
    rewrite !take_ge in Hbox by lia. rewrite !take_ge, drop_ge by lia.
    destruct (f_step (index_get s) s a) as (s' & Hs' & Hidx & HR'); [done..|].
    exists s'. simpl. rewrite app_nil_r, Hidx.
    by rewrite take_ge by lia.
  - set (d := (D - S l)%nat) in *.
    assert (Hd : (D - l)%nat = S d) by lia.
    destruct (lookup_lt_is_Some_2 r d) as [e He]; [lia|].
    cbn [ParallelForIterate]. fold d. rewrite He. cbn [mbind option_bind].
    rewrite (drop_S _ _ _ He). cbn [coordinates]. rewrite foldl_bind.
    set (p := take d (index_get s)) in *.
    destruct (for_index_fold
      (λ s' a', length (index_get s') = D ∧ take d (index_get s') = p ∧ R s' a')
      (λ _sycl_index s0,
         index ← vec_set d _sycl_index (index_get s0);
         ParallelForIterate D r index_get index_set f l (index_set index s0))
      (λ i a', foldl (λ a0 q, g (p ++ q) a0) a' ((i ::.) <$> coordinates (drop (S d) r)))
      e) with (n := Z.to_nat e) (i0 := 0) (s := s) (a := a)
      as (s' & Hs' & Hlen' & Hp' & HR'); [|lia|lia|done|].
    + intros i s1 a1 Hi (Hlen1 & Hp1 & HR1).
      rewrite vec_set_Some by lia. cbn [mbind option_bind].
      destruct (IH (index_set (<[d := i]> (index_get s1)) s1) a1)
        as (s2 & Hs2 & Hlen2 & Hp2 & HR2).
      * lia.
      * by rewrite get_set, length_insert.
      * rewrite Hd, get_set, take_S_insert, (take_S_r _ _ _ He), Hp1 by lia.
        apply Forall2_app; [done|]. constructor; [lia|constructor].
      * by apply set_R.
      * rewrite Hd, get_set, take_S_insert, Hp1 in Hp2, HR2 by lia.
        exists s2. split; [done|]. split; [done|]. split.
        -- replace (take d (index_get s2))
             with (take d (take (S d) (index_get s2)))
             by (rewrite take_take; f_equal; lia).
           rewrite Hp2, take_app_length'; [done|].
           unfold p. rewrite length_take. lia.
        -- rewrite foldl_fmap.
           erewrite foldl_pointwise; [exact HR2|]. intros a0 q. simpl.
           by rewrite <- app_assoc.
    + exists s'. rewrite seqZ_to_nat in HR'. by rewrite Hs'.
Qed.

End IterateSpec.

(** ** Flat launch *)

Lemma foldl_snoc_id {A} (l : list A) (t : list A) :
  foldl (λ t c, t ++ [c]) t l = t ++ l.
Proof.
  revert t. induction l as [|x l IH]; intros t; simpl.
  - by rewrite app_nil_r.
  - by rewrite IH, <- app_assoc.
Qed.

Lemma parallel_for_fold {K} (D : nat) (sizes : list Z) (f : list Z → K → K) (k : K) :
  length sizes = D →
  parallel_for D sizes f k = Some (foldl (λ k c, f c k) k (coordinates sizes)).
Proof.
  intros Hlen. unfold parallel_for.
  destruct (ParallelForIterate_spec D sizes
    (λ s : list Z * K, s.1) (λ i s, (i, s.2)) (λ i s, Some (s.1, f i s.2))
    (λ s a, s.2 = a) f) with (level := D) (s := (range_default D, k)) (a := k)
    as (s' & Hs' & _ & _ & HR); try done.
  - intros c s a _ Hc <-. exists (s.1, f c s.2). by rewrite <- Hc.
  - apply length_replicate.
  - rewrite Nat.sub_diag. constructor.
  - rewrite Hs'. simpl. rewrite HR, Nat.sub_diag. done.
Qed.

(** C1. A flat launch over a range of [D] non-negative sizes calls the
    kernel on the coordinates of the box, one after the other: the final
    kernel state is the fold of the kernel over [coordinates sizes], for
    every kernel and every initial state (with the recording kernel the
    trace is that list).  That list has [product sizes] entries, has no
    repetition, holds exactly the coordinates [c] with [0 ≤ c[i] < sizes[i]]
    in every dimension, each of them with [D] slots; when some size is zero
    the kernel is not called at all. *)
Theorem parallel_for_range_coverage {K} (D : nat) (sizes : list Z)
    (f : list Z → K → K) (k : K) :
  length sizes = D →
  Forall (λ n, 0 ≤ n) sizes →
  parallel_for D sizes f k = Some (foldl (λ k c, f c k) k (coordinates sizes)) ∧
  parallel_for D sizes (λ c trace, trace ++ [c]) [] = Some (coordinates sizes) ∧
  Z.of_nat (length (coordinates sizes)) = product sizes ∧
  NoDup (coordinates sizes) ∧
  (∀ c, c ∈ coordinates sizes ↔ in_box c sizes) ∧
  (∀ c, c ∈ coordinates sizes → length c = D) ∧
  (0 ∈ sizes → coordinates sizes = [] ∧ parallel_for D sizes f k = Some k).
Proof.
  intros Hlen Hpos. split_and!.
  - by apply parallel_for_fold.
  - rewrite parallel_for_fold by done. by rewrite foldl_snoc_id.
  - by apply length_coordinates.
  - apply NoDup_coordinates.
  - intros c. apply elem_of_coordinates.
  - intros c Hc%elem_of_coordinates%in_box_length. congruence.
  - intros Hz. split; [by apply coordinates_zero|].
    rewrite parallel_for_fold by done. by rewrite coordinates_zero.
Qed.

Lemma parallel_for_range_coverage_witness :
  parallel_for 2 [2; 3] (λ c trace, trace ++ [c]) []
  = Some [[0; 0]; [0; 1]; [0; 2]; [1; 0]; [1; 1]; [1; 2]].
Proof.
  refine (proj1 (proj2 (parallel_for_range_coverage (K := list (list Z)) 2 [2; 3]
    (λ c trace, trace ++ [c]) [] _ _))).
  - reflexivity.
  - repeat constructor; lia.
Defined.

(** ** Group counts *)

Lemma range_div_ceil (dims : nat) (G L : list Z) :
  length G = dims → length L = dims →
  Forall2 (λ g l, 0 ≤ g ∧ 0 < l ∧ g + l ≤ Int.INTPTR_MAX) G L →
  range_div dims G L = Some (zip_with ceil_div G L).
Proof.
  intros HG HL Hwf. apply elementwise_zip_with; [done..|].
  eapply Forall2_impl; [exact Hwf|]. intros g l (? & ? & ?).
  by apply round_up_div_ceil.
Qed.

Lemma range_div_formula (dims : nat) (G L : list Z) :
  length G = dims → length L = dims →
  Forall2 (λ g l, 0 < l ∧ Int.INTPTR_MIN ≤ g + l - 1 ∧ g + l ≤ Int.INTPTR_MAX) G L →
  range_div dims G L = Some (zip_with (λ g l, (g + l - 1) ÷ l) G L).
Proof.
  intros HG HL Hwf. apply elementwise_zip_with; [done..|].
  eapply Forall2_impl; [exact Hwf|]. intros g l (? & ? & ?).
  by apply round_up_div_formula.
Qed.

(** C2.  For an nd_range whose global sizes are non-negative and whose
    local sizes are positive (with [GlobalSize[i] + LocalSize[i]]
    representable, so that the rounding sum does not overflow),
    [get_group_range()] is defined and is in every dimension the ceiling of
    [GlobalSize[i] / LocalSize[i]], the integer [q] with
    [LocalSize[i] * (q - 1) < GlobalSize[i] ≤ LocalSize[i] * q]; it is
    computed as [(GlobalSize[i] + LocalSize[i] - 1) / LocalSize[i]].
    Global size (10,10) with local size (3,3) gives (4,4). *)
Theorem get_group_range_ceiling (dims : nat) (G L : list Z) (offset : option (list Z)) :
  length G = dims → length L = dims →
  Forall2 (λ g l, 0 ≤ g ∧ 0 < l ∧ g + l ≤ Int.INTPTR_MAX) G L →
  get_group_range dims (make_nd_range dims G L offset)
    = Some (zip_with ceil_div G L) ∧
  zip_with ceil_div G L = zip_with (λ g l, (g + l - 1) ÷ l) G L ∧
  (∀ i g l, G !! i = Some g → L !! i = Some l →
     l * (ceil_div g l - 1) < g ≤ l * ceil_div g l) ∧
  get_group_range 2 (make_nd_range 2 [10; 10] [3; 3] None) = Some [4; 4].
Proof.
  intros HG HL Hwf. split_and!.
  - by apply range_div_ceil.
  - symmetry. apply zip_with_Forall2_ext.
    eapply Forall2_impl; [exact Hwf|]. intros g l (? & ? & _). simpl.
    by apply quot_round_up_ceil.
  - intros i g l Hg Hl.
    destruct (Forall2_lookup_lr _ _ _ _ _ _ Hwf Hg Hl) as (_ & ? & _).
    by apply ceil_div_bounds.
  - reflexivity.
Qed.

Lemma get_group_range_ceiling_witness :
  get_group_range 3 (make_nd_range 3 [10; 0; 7] [3; 2; 7] None) = Some [4; 0; 1].
Proof.
  refine (proj1 (get_group_range_ceiling 3 [10; 0; 7] [3; 2; 7] None _ _ _)).
  - reflexivity.
  - reflexivity.
  - repeat constructor; try lia; by vm_compute.
Defined.

(** ** The default offset *)

(** C4 (the code differs).  Without an offset argument the offset of an
    nd_range is the three-component vector (0,0,0) whatever [dims] is; it
    is the zero vector of length [dims] only for [dims = 3]. *)
Theorem nd_range_default_offset (dims : nat) (G L : list Z) :
  Offset (make_nd_range dims G L None) = [0; 0; 0] ∧
  length (get_offset (make_nd_range dims G L None)) = 3%nat ∧
  (Offset (make_nd_range dims G L None) = range_default dims ↔ dims = 3%nat).
Proof.
  split; [done|]. split; [done|]. simpl. unfold default_offset. split.
  - intros H. apply (f_equal length) in H. unfold range_default in H.
    rewrite length_replicate in H. simpl in H. lia.
  - by intros ->.
Qed.

(** ** Grouped launch *)

Lemma ceil_div_exact g l : 0 < l → (l | g) → ceil_div g l = g `div` l.
Proof.
  intros Hl [z ->]. unfold ceil_div.
  rewrite <- Z.mul_opp_l, !Z.div_mul by lia. lia.
Qed.

Lemma exact_div_mul g l : 0 < l → (l | g) → l * (g `div` l) = g.
Proof. intros Hl [z ->]. rewrite Z.div_mul by lia. lia. Qed.

Section GroupedLaunchSpec.

Context {K : Type}.
Variable D : nat.
Variable nd : nd_range.
Variable kern : item → K → K.

Hypothesis global_length : length (GlobalRange nd) = D.
Hypothesis local_length : length (LocalRange nd) = D.
Hypothesis whole_groups :
  Forall2 (λ g l, 0 < l ∧ 0 ≤ g ∧ (l | g) ∧ g + l ≤ Int.INTPTR_MAX)
    (GlobalRange nd) (LocalRange nd).

Local Abbreviation groups := (zip_with Z.div (GlobalRange nd) (LocalRange nd)).
Local Abbreviation reconstructed G L :=
  {| GlobalIndex := zip_with Z.add L (zip_with Z.mul (LocalRange nd) G);
     LocalIndex := L; NDRange := nd |}.

Lemma get_group_range_exact : get_group_range D nd = Some groups.
Proof.
  unfold get_group_range. rewrite (range_div_ceil D) by
    (done || (eapply Forall2_impl; [exact whole_groups|]; simpl; tauto)).
  f_equal. apply zip_with_Forall2_ext.
  eapply Forall2_impl; [exact whole_groups|].
  intros g l (? & ? & ? & ?). by apply ceil_div_exact.
Qed.

Lemma groups_length : length groups = D.
Proof. rewrite length_zip_with. lia. Qed.

(** What is known in one dimension [i] of a group coordinate. *)
Lemma group_slot G i l y :
  in_box G groups → LocalRange nd !! i = Some l → G !! i = Some y →
  0 < l ∧ 0 ≤ y ∧ l * (y + 1) + l ≤ Int.INTPTR_MAX.
Proof.
  intros HG Hl Hy.
  destruct (Forall2_lookup_l _ _ _ _ _ HG Hy) as (c & Hc & Hyc).
  apply lookup_zip_with_Some in Hc as (g & l' & -> & Hg & Hl').
  assert (l' = l) as -> by congruence.
  destruct (Forall2_lookup_lr _ _ _ _ _ _ whole_groups Hg Hl) as (? & ? & Hdiv & ?).
  pose proof (exact_div_mul g l ltac:(done) Hdiv). nia.
Qed.

Lemma scaled_group G :
  in_box G groups →
  range_mul D (LocalRange nd) G = Some (zip_with Z.mul (LocalRange nd) G).
Proof.
  intros HG. pose proof INTPTR_MIN_neg.
  assert (length G = D) by (rewrite (in_box_length _ _ HG); apply groups_length).
  apply elementwise_zip_with; [done..|].
  apply Forall2_same_length_lookup_2; [lia|]. intros i l y Hl Hy.
  destruct (group_slot G i l y) as (? & ? & ?); [done..|].
  apply checked_Some. nia.
Qed.

Lemma global_of_local G L :
  in_box G groups → in_box L (LocalRange nd) →
  range_add D L (zip_with Z.mul (LocalRange nd) G)
  = Some (zip_with Z.add L (zip_with Z.mul (LocalRange nd) G)).
Proof.
  intros HG HL. pose proof INTPTR_MIN_neg.
  assert (length G = D) by (rewrite (in_box_length _ _ HG); apply groups_length).
  assert (length L = D) by (by rewrite (in_box_length _ _ HL)).
  apply elementwise_zip_with; [done| |].
  { rewrite length_zip_with. lia. }
  apply Forall2_same_length_lookup_2; [rewrite length_zip_with; lia|].
  intros i x m Hx Hm.
  apply lookup_zip_with_Some in Hm as (l & y & -> & Hl & Hy).
  destruct (group_slot G i l y) as (? & ? & ?); [done..|].
  destruct (Forall2_lookup_lr _ _ _ _ _ _ HL Hx Hl) as [? ?].
  apply checked_Some. nia.
Qed.

(** One work-group: the inner iteration calls the kernel on the items of
    group [G], local coordinate by local coordinate. *)
Lemma iterateInWorkGroup_spec G (s : launch_state K) :
  in_box G groups → Group s = G → NDRange (Index s) = nd →
  length (Local s) = D →
  ∃ s', iterateInWorkGroup D kern (LocalRange nd) G s = Some s' ∧
        Group s' = G ∧ NDRange (Index s') = nd ∧ length (Local s') = D ∧
        kernel_state s' =
          foldl (λ k L, kern (reconstructed G L) k) (kernel_state s)
            (coordinates (LocalRange nd)).
Proof.
  intros HG HGs Hnd Hlen. unfold iterateInWorkGroup.
  destruct (ParallelForIterate_spec D (LocalRange nd) Local with_Local
    (reconstructItem D kern (LocalRange nd))
    (λ s a, Group s = G ∧ NDRange (Index s) = nd ∧ kernel_state s = a)
    (λ L k, kern (reconstructed G L) k)) with (level := D) (s := s)
    (a := kernel_state s) as (s' & Hs' & Hlen' & _ & HG' & Hnd' & Hk'); try done.
  - intros L s0 a HL HLs (HG0 & Hnd0 & Hk0). unfold reconstructItem.
    rewrite HG0, HLs, scaled_group by done. simpl.
    rewrite global_of_local by done. simpl.
    eexists. split; [done|]. simpl. split; [done|]. split; [done|].
    split; [done|]. rewrite Hk0. f_equal. unfold set_global, set_local. simpl.
    by rewrite Hnd0.
  - rewrite Nat.sub_diag. constructor.
  - exists s'. rewrite Nat.sub_diag in Hk'. simpl in Hk'. by rewrite Hk'.
Qed.

Lemma iterate_groups_spec (s : launch_state K) :
  NDRange (Index s) = nd → length (Group s) = D → length (Local s) = D →
  kernel_state <$> iterate_groups D kern groups (LocalRange nd) s
  = Some (foldl (λ k it, kern it k) (kernel_state s) (nd_items nd groups)).
Proof.
  intros Hnd HlenG HlenL. unfold iterate_groups.
  destruct (ParallelForIterate_spec D groups Group with_Group
    (iterateInWorkGroup D kern (LocalRange nd))
    (λ s a, NDRange (Index s) = nd ∧ length (Local s) = D ∧ kernel_state s = a)
    (λ G k, foldl (λ k L, kern (reconstructed G L) k) k
              (coordinates (LocalRange nd)))) with (level := D) (s := s)
    (a := kernel_state s) as (s' & Hs' & _ & _ & _ & _ & Hk'); try done.
  - apply groups_length.
  - intros G s0 a HG HGs (Hnd0 & HL0 & Hk0).
    destruct (iterateInWorkGroup_spec G s0) as (s1 & Hs1 & ? & ? & ? & Hk1);
      [done..|].
    exists s1. rewrite <- Hk0. by rewrite Hk1.
  - rewrite Nat.sub_diag. constructor.
  - rewrite Hs'. simpl. rewrite Hk', Nat.sub_diag. simpl. f_equal.
    unfold nd_items. rewrite foldl_bind.
    apply foldl_pointwise. intros k G. by rewrite foldl_bind.
Qed.

Lemma parallel_for_nd_fold (k : K) :
  parallel_for_nd D nd kern k
  = Some (foldl (λ k it, kern it k) k (nd_items nd groups)).
Proof.
  unfold parallel_for_nd. rewrite get_group_range_exact. simpl.
  rewrite iterate_groups_spec; [done|done|..]; apply length_replicate.
Qed.

End GroupedLaunchSpec.

(** The global coordinates of the items tile the global box. *)

Lemma split_coordinate (gs ls : list Z) :
  Forall2 (λ g l, 0 < l ∧ 0 ≤ g ∧ (l | g) ∧ g + l ≤ Int.INTPTR_MAX) gs ls →
  ∀ c, in_box c gs →
    in_box (zip_with Z.div c ls) (zip_with Z.div gs ls) ∧
    in_box (zip_with Z.modulo c ls) ls ∧
    zip_with Z.add (zip_with Z.modulo c ls)
      (zip_with Z.mul ls (zip_with Z.div c ls)) = c.
Proof.
  unfold in_box.
  induction 1 as [|g l gs ls (Hl & Hg & Hdiv & _) _ IH]; intros c Hc.
  - apply Forall2_nil_inv_r in Hc as ->. by repeat split; constructor.
  - apply Forall2_cons_inv_r in Hc as (x & c' & Hx & Hc' & ->).
    destruct (IH c' Hc') as (IH1 & IH2 & IH3). simpl.
    pose proof (exact_div_mul g l Hl Hdiv).
    pose proof (Z.mod_pos_bound x l Hl).
    pose proof (Z.div_mod x l ltac:(lia)).
    split; [|split].
    + constructor; [|done]. split; [apply Z.div_pos; lia|].
      apply Z.div_lt_upper_bound; lia.
    + by constructor.
    + rewrite IH3. f_equal. lia.
Qed.

Lemma product_groups (gs ls : list Z) :
  Forall2 (λ g l, 0 < l ∧ 0 ≤ g ∧ (l | g) ∧ g + l ≤ Int.INTPTR_MAX) gs ls →
  Forall (λ n, 0 ≤ n) gs ∧ Forall (λ n, 0 ≤ n) ls ∧
  Forall (λ n, 0 ≤ n) (zip_with Z.div gs ls) ∧
  product (zip_with Z.div gs ls) * product ls = product gs.
Proof.
  unfold product.
  induction 1 as [|g l gs ls (Hl & Hg & Hdiv & _) _ (IH1 & IH2 & IH3 & IH4)]; simpl.
  - by repeat split; constructor.
  - pose proof (exact_div_mul g l Hl Hdiv).
    split_and!.
    + constructor; [lia|done].
    + constructor; [lia|done].
    + constructor; [apply Z.div_pos; lia|done].
    + rewrite <- IH4. nia.
Qed.

Lemma elem_of_nd_items (r : nd_range) (group_count : list Z) (it : item) :
  it ∈ nd_items r group_count ↔
  ∃ G L, in_box G group_count ∧ in_box L (LocalRange r) ∧
         get_local it = L ∧
         get_global it = zip_with Z.add L (zip_with Z.mul (LocalRange r) G) ∧
         NDRange it = r.
Proof.
  unfold nd_items. rewrite list_elem_of_bind. split.
  - intros (G & (L & ->%list_elem_of_singleton & HL)%list_elem_of_bind & HG).
    exists G, L. by rewrite <- !elem_of_coordinates.
  - intros (G & L & HG & HL & <- & Hglobal & <-). exists G. split.
    + apply list_elem_of_bind. exists (get_local it). split.
      * apply list_elem_of_singleton. destruct it; simpl in *. by subst.
      * by apply elem_of_coordinates.
    + by apply elem_of_coordinates.
Qed.

Lemma length_nd_items (r : nd_range) (group_count : list Z) :
  length (nd_items r group_count)
  = (length (coordinates group_count) * length (coordinates (LocalRange r)))%nat.
Proof.
  unfold nd_items. apply length_bind_constant. intros G.
  rewrite (length_bind_constant _ _ 1%nat) by done. lia.
Qed.

Lemma nd_items_tile (r : nd_range) :
  Forall2 (λ g l, 0 < l ∧ 0 ≤ g ∧ (l | g) ∧ g + l ≤ Int.INTPTR_MAX)
    (GlobalRange r) (LocalRange r) →
  coordinates (GlobalRange r)
  ≡ₚ get_global <$> nd_items r (zip_with Z.div (GlobalRange r) (LocalRange r)).
Proof.
  intros Hwf. apply submseteq_length_Permutation.
  - apply NoDup_submseteq; [apply NoDup_coordinates|].
    intros c Hc%elem_of_coordinates.
    destruct (split_coordinate _ _ Hwf c Hc) as (HG & HL & Heq).
    apply list_elem_of_fmap.
    exists {| GlobalIndex := c;
              LocalIndex := zip_with Z.modulo c (LocalRange r);
              NDRange := r |}.
    split; [done|]. apply elem_of_nd_items.
    eexists _, _. split; [exact HG|]. split; [exact HL|]. by rewrite Heq.
  - destruct (product_groups _ _ Hwf) as (Hgs & Hls & Hcnt & Hprod).
    rewrite length_fmap, length_nd_items.
    apply Nat2Z.inj_le. rewrite Nat2Z.inj_mul.
    rewrite !length_coordinates by done. lia.
Qed.

(** A global size below zero: no group, no item, and an empty box. *)

Lemma in_box_nonpositive (c sizes : list Z) :
  Exists (λ n, n ≤ 0) sizes → ¬ in_box c sizes.
Proof.
  unfold in_box. intros Hex Hbox. induction Hbox as [|ci n c sizes Hci _ IH].
  - by apply Exists_nil in Hex.
  - apply Exists_cons in Hex as [Hn | Hex]; [lia | by apply IH].
Qed.

Lemma coordinates_nonpositive (sizes : list Z) :
  Exists (λ n, n ≤ 0) sizes → coordinates sizes = [].
Proof.
  intros Hex. apply elem_of_nil_inv. intros c Hc%elem_of_coordinates.
  by apply (in_box_nonpositive c sizes).
Qed.

Lemma nd_items_no_group (r : nd_range) (group_count : list Z) :
  coordinates group_count = [] → nd_items r group_count = [].
Proof. unfold nd_items. by intros ->. Qed.

Lemma negative_multiple_no_group (G L : list Z) :
  Forall2 (λ g l, 0 < l ∧ (l | g) ∧
                  Int.INTPTR_MIN ≤ g + l - 1 ∧ g + l ≤ Int.INTPTR_MAX) G L →
  ¬ Forall (λ g, 0 ≤ g) G →
  Exists (λ n, n ≤ 0) G ∧
  Exists (λ n, n ≤ 0) (zip_with Z.div G L) ∧
  Exists (λ n, n ≤ 0) (zip_with (λ g l, (g + l - 1) ÷ l) G L).
Proof.
  induction 1 as [|g l G L (Hl & Hdiv & _) _ IH]; intros Hneg.
  - destruct Hneg. constructor.
  - destruct (decide (0 ≤ g)) as [Hg|Hg].
    + destruct IH as (? & ? & ?).
      { intros HG. apply Hneg. by constructor. }
      simpl. split_and!; by apply Exists_cons_tl.
    + simpl. split_and!; apply Exists_cons_hd.
      * lia.
      * pose proof (exact_div_mul g l Hl Hdiv). nia.
      * destruct (quot_bounded (g + l - 1) l Hl) as [_ Hq].
        destruct Hdiv as [z Hz].
        assert (z ≤ -1) by nia. assert (g ≤ - l) by nia. lia.
Qed.

Lemma parallel_for_nd_no_group {K} (D : nat) (nd : nd_range)
    (kern : item → K → K) (k : K) (group_count : list Z) :
  get_group_range D nd = Some group_count →
  length group_count = D →
  Exists (λ n, n ≤ 0) group_count →
  parallel_for_nd D nd kern k = Some k.
Proof.
  intros Hgr Hlen Hex. unfold parallel_for_nd. rewrite Hgr. simpl.
  unfold iterate_groups.
  destruct (ParallelForIterate_spec D group_count Group with_Group
    (iterateInWorkGroup D kern (get_local_range nd))
    (λ s a, kernel_state s = a) (λ _ a, a)) with (level := D)
    (s := {| Index := make_item D nd; Group := range_default D;
             Local := range_default D; kernel_state := k |}) (a := k)
    as (s' & Hs' & _ & _ & Hk'); try done.
  - intros c s a Hc. by destruct (in_box_nonpositive c group_count).
  - apply length_replicate.
  - rewrite Nat.sub_diag. constructor.
  - rewrite Hs'. simpl. rewrite Hk', Nat.sub_diag. simpl.
    by rewrite coordinates_nonpositive.
Qed.

Lemma Forall2_and_Forall_l {A B} (P : A → B → Prop) (Q : A → Prop) l k :
  Forall2 P l k → Forall Q l → Forall2 (λ x y, Q x ∧ P x y) l k.
Proof.
  induction 1; intros HQ; [constructor|].
  apply Forall_cons in HQ as [? ?]. constructor; auto.
Qed.

(** C3.  For a grouped launch over [D] dimensions whose local sizes are
    positive and whose global sizes are exact multiples of them (with the
    rounding sums [GlobalSize[i] + LocalSize[i]] and
    [GlobalSize[i] + LocalSize[i] - 1] representable), the launch is
    defined and calls the kernel on the items of [nd_items], group by group
    and local coordinate by local coordinate: every item has
    [get_local() = L] and [get_global() = L + LocalSize * G] for its group
    coordinate [G] and local coordinate [L], with no offset added, and
    carries the nd_range.  The global coordinates of the items are a
    rearrangement of the coordinates of the global box: every point of
    [[0,GlobalSize[i])] in every dimension appears, and appears once. *)
Theorem parallel_for_nd_range_items {K} (D : nat) (nd : nd_range)
    (kern : item → K → K) (k : K) :
  length (GlobalRange nd) = D → length (LocalRange nd) = D →
  Forall2 (λ g l, 0 < l ∧ (l | g) ∧
                  Int.INTPTR_MIN ≤ g + l - 1 ∧ g + l ≤ Int.INTPTR_MAX)
    (GlobalRange nd) (LocalRange nd) →
  let groups := zip_with Z.div (GlobalRange nd) (LocalRange nd) in
  parallel_for_nd D nd kern k
    = Some (foldl (λ k it, kern it k) k (nd_items nd groups)) ∧
  parallel_for_nd D nd (λ it trace, trace ++ [it]) [] = Some (nd_items nd groups) ∧
  (∀ it, it ∈ nd_items nd groups ↔
     ∃ G L, in_box G groups ∧ in_box L (LocalRange nd) ∧
            get_local it = L ∧
            get_global it = zip_with Z.add L (zip_with Z.mul (LocalRange nd) G) ∧
            NDRange it = nd) ∧
  get_global <$> nd_items nd groups ≡ₚ coordinates (GlobalRange nd) ∧
  NoDup (get_global <$> nd_items nd groups) ∧
  (∀ c, c ∈ get_global <$> nd_items nd groups ↔ in_box c (GlobalRange nd)) ∧
  (Forall (λ g, 0 ≤ g) (GlobalRange nd) → get_group_range D nd = Some groups).
Proof.
  intros HG HL Hwf groups. subst groups.
  assert (Htile : get_global <$> nd_items nd (zip_with Z.div (GlobalRange nd) (LocalRange nd))
                  ≡ₚ coordinates (GlobalRange nd)).
  { destruct (decide (Forall (λ g, 0 ≤ g) (GlobalRange nd))) as [Hpos|Hneg].
    - symmetry. apply nd_items_tile.
      eapply Forall2_impl; [exact (Forall2_and_Forall_l _ _ _ _ Hwf Hpos)|].
      simpl. tauto.
    - destruct (negative_multiple_no_group _ _ Hwf Hneg) as (HexG & Hex & _).
      rewrite nd_items_no_group by (by apply coordinates_nonpositive).
      by rewrite (coordinates_nonpositive (GlobalRange nd)). }
  assert (Hfold : ∀ K' (kern' : item → K' → K') (k' : K'),
    parallel_for_nd D nd kern' k'
    = Some (foldl (λ k it, kern' it k) k'
              (nd_items nd (zip_with Z.div (GlobalRange nd) (LocalRange nd))))).
  { intros K' kern' k'.
    destruct (decide (Forall (λ g, 0 ≤ g) (GlobalRange nd))) as [Hpos|Hneg].
    - apply parallel_for_nd_fold; [done..|].
      eapply Forall2_impl; [exact (Forall2_and_Forall_l _ _ _ _ Hwf Hpos)|].
      simpl. tauto.
    - destruct (negative_multiple_no_group _ _ Hwf Hneg) as (_ & Hex & Hex').
      rewrite nd_items_no_group by (by apply coordinates_nonpositive). simpl.
      eapply parallel_for_nd_no_group; [|  |exact Hex'].
      + unfold get_group_range. apply range_div_formula; [done..|].
        eapply Forall2_impl; [exact Hwf|]. simpl. tauto.
      + rewrite length_zip_with. lia. }
  split_and!.
  - apply Hfold.
  - rewrite Hfold. by rewrite foldl_snoc_id.
  - intros it. apply elem_of_nd_items.
  - done.
  - rewrite Htile. apply NoDup_coordinates.
  - intros c. rewrite Htile. apply elem_of_coordinates.
  - intros Hpos. apply get_group_range_exact; [done..|].
    eapply Forall2_impl; [exact (Forall2_and_Forall_l _ _ _ _ Hwf Hpos)|].
    simpl. tauto.
Qed.

Lemma parallel_for_nd_range_items_witness :
  (λ trace : list item, get_global <$> trace) <$>
    parallel_for_nd 2 (make_nd_range 2 [4; 4] [2; 2] None)
      (λ it trace, trace ++ [it]) []
  = Some [[0; 0]; [0; 1]; [1; 0]; [1; 1]; [0; 2]; [0; 3]; [1; 2]; [1; 3];
          [2; 0]; [2; 1]; [3; 0]; [3; 1]; [2; 2]; [2; 3]; [3; 2]; [3; 3]].
Proof.
  rewrite (proj1 (proj2 (parallel_for_nd_range_items
    (K := list item) 2 (make_nd_range 2 [4; 4] [2; 2] None)
    (λ it trace, trace ++ [it]) [] eq_refl eq_refl
    ltac:(repeat constructor; try lia; try (by exists 2); by vm_compute)))).
  reflexivity.
Defined.

(** ** The launch with a program, and the unimplemented entry points *)

(** C8.  The launch that also takes a program gives, for every program
    value of every type, the result of the launch without it: over a range
    and over an nd_range alike, for every kernel and every kernel state,
    so the kernel sees the same coordinates or items in the same order. *)
Theorem parallel_for_program_inert {Program K : Type} (Dimensions : nat) (p : Program) :
  (∀ (r : list Z) (f : list Z → K → K) (k : K),
     parallel_for_program Dimensions r p f k = parallel_for Dimensions r f k) ∧
  (∀ (r : nd_range) (f : item → K → K) (k : K),
     parallel_for_program Dimensions r p f k = parallel_for_nd Dimensions r f k) ∧
  (∀ {Program' : Type} (p' : Program') (r : list Z) (f : list Z → list (list Z) → _) t,
     parallel_for_program Dimensions r p f t = parallel_for_program Dimensions r p' f t) ∧
  (∀ {Program' : Type} (p' : Program') (r : nd_range) (f : item → list item → _) t,
     parallel_for_program Dimensions r p f t = parallel_for_program Dimensions r p' f t).
Proof. by split_and!. Qed.

(** C10.  [parallel_for_workgroup] and [parallel_for_workitem] return the
    state they were given, for every range, functor and state: the functor
    is not called (a recording kernel records nothing). *)
Theorem work_group_entry_points_are_stubs {Range F W : Type} (r : Range) (f : F) (w : W) :
  parallel_for_workgroup r f w = Some w ∧
  parallel_for_workitem r f w = Some w ∧
  (∀ (kern : item → list item → list item),
     parallel_for_workgroup r kern (@nil item) = Some [] ∧
     parallel_for_workitem r kern (@nil item) = Some []).
Proof. by split_and!. Qed.

(** ** Views: the three indexing forms *)

Lemma pointer_add_add p a b :
  pointer_add (pointer_add p a) b = pointer_add p (a + b).
Proof. unfold pointer_add. simpl. f_equal. lia. Qed.

Lemma row_major_acc (shape c : list Z) acc :
  length c = length shape →
  foldl (λ acc ec, acc * ec.1 + ec.2) acc (zip shape c)
  = acc * num_elements shape + row_major_offset shape c.
Proof.
  unfold row_major_offset. revert c acc.
  induction shape as [|e shape IH]; intros [|i c] acc Hlen; simplify_eq/=; [lia|].
  rewrite (IH c (acc * e + i)), (IH c (0 * e + i)) by done. lia.
Qed.

Lemma row_major_cons (shape c : list Z) e i :
  length c = length shape →
  row_major_offset (e :: shape) (i :: c)
  = i * num_elements shape + row_major_offset shape c.
Proof.
  intros Hlen. unfold row_major_offset at 1. simpl.
  rewrite row_major_acc by done. lia.
Qed.

(** In the C storage order the offset of an element is the row-major
    offset of its coordinate, and it lies inside the storage. *)
Lemma element_offset_row_major (shape c : list Z) :
  in_box c shape →
  element_offset c shape (compute_strides shape)
    = Some (row_major_offset shape c) ∧
  0 ≤ row_major_offset shape c < num_elements shape.
Proof.
  unfold in_box. revert c. induction shape as [|e shape IH]; intros c Hc.
  - apply Forall2_nil_inv_r in Hc as ->. by vm_compute.
  - apply Forall2_cons_inv_r in Hc as (i & c' & Hi & Hc' & ->).
    destruct (IH c' Hc') as (IHo & IHb). simpl.
    rewrite decide_True, IHo by done. simpl.
    rewrite row_major_cons by (by apply Forall2_length in Hc').
    fold (num_elements shape). split; [done|]. nia.
Qed.

Lemma element_offset_bounds (shape c : list Z) (o : Z) :
  element_offset c shape (compute_strides shape) = Some o →
  0 ≤ o < num_elements shape.
Proof.
  revert c o. induction shape as [|e shape IH]; intros c o Ho; simpl in Ho.
  - destruct c; simplify_eq/=; unfold num_elements; simpl; lia.
  - destruct c as [|i c]; [done|].
    destruct (decide (0 ≤ i < e)); [|done].
    destruct (element_offset c shape (compute_strides shape)) as [o'|] eqn:Ho';
      simplify_eq/=.
    specialize (IH c o' Ho'). fold (num_elements shape). nia.
Qed.

(** Chained subscripts, one per dimension, reach the element that the
    coordinate form addresses. *)
Lemma subscripts_element (shape c : list Z) (base : pointer) (o : Z) :
  shape ≠ [] →
  element_offset c shape (compute_strides shape) = Some o →
  length c = length shape →
  subscripts (SubArray {| base_ := base; extent_list_ := shape;
                          stride_list_ := compute_strides shape |}) c
  = Some (Element (pointer_add base o)).
Proof.
  revert c base o. induction shape as [|e shape IH]; [done|].
  intros [|i c] base o _ Ho Hlen; simplify_eq/=.
  destruct (decide (0 ≤ i < e)); [|done]. simpl in *.
  destruct (element_offset c shape (compute_strides shape)) as [o'|] eqn:Ho';
    simplify_eq/=.
  unfold subscript. simpl. rewrite decide_True by done. simpl.
  destruct shape as [|e' shape'].
  - destruct c; simplify_eq/=. unfold pointer_add. simpl. do 3 f_equal. lia.
  - rewrite (IH c _ o') by done. by rewrite pointer_add_add.
Qed.

Lemma element_block (a : multi_array_ref) (Index : list Z) (p : pointer) :
  element a Index = Some p → block p = block (base_ a).
Proof.
  unfold element. intros (o & _ & ->)%fmap_Some. done.
Qed.

Lemma subscripts_block (indices : list Z) : ∀ (a : multi_array_ref) (p : pointer),
  subscripts (SubArray a) indices = Some (Element p) →
  block p = block (base_ a).
Proof.
  induction indices as [|i indices IH]; intros a p H; [done|]. simpl in H.
  unfold subscript in H.
  destruct (extent_list_ a) as [|e es]; [done|].
  destruct (stride_list_ a) as [|st sts]; [done|].
  destruct (decide (0 ≤ i < e)); [|done]. simpl in H.
  destruct es as [|e' es'].
  - destruct indices; simplify_eq/=. done.
  - by rewrite (IH _ _ H).
Qed.

Lemma accessor_refers_block (acc : accessor) (p : pointer) :
  accessor_refers acc p → block p = block (base_ (Array acc)).
Proof.
  intros [[Index H] | [[Index H] | [indices H]]].
  - by eapply element_block.
  - by eapply element_block.
  - by eapply subscripts_block.
Qed.

(** C6 (as amended).  For an accessor over a view of shape
    [(S0,…,S(D-1))] in C storage order and an in-bounds coordinate [c]:
    indexing by the id [c] and indexing by an item whose global coordinate
    is [c] address the same storage location, which is the base of the view
    advanced by the row-major offset of [c], inside the storage.  For
    [D = 1] indexing by the flat offset, which is then [c[0]], addresses
    that same location as well. *)
Theorem accessor_forms_agree (acc : accessor) (c : list Z) :
  c_storage_order (Array acc) →
  in_box c (extent_list_ (Array acc)) →
  let shape := extent_list_ (Array acc) in
  let p := pointer_add (base_ (Array acc)) (row_major_offset shape c) in
  accessor_at_id acc c = Some p ∧
  (∀ it : item, get_global it = c → accessor_at_item acc it = Some p) ∧
  0 ≤ row_major_offset shape c < num_elements shape ∧
  (length shape = 1%nat →
     c = [row_major_offset shape c] ∧
     accessor_at_size_t acc (row_major_offset shape c) = Some (Element p)).
Proof.
  destruct acc as [[base shape strides]]. unfold c_storage_order. simpl.
  intros -> Hc.
  destruct (element_offset_row_major shape c Hc) as (Ho & Hb).
  split_and!.
  - unfold accessor_at_id, element. simpl. by rewrite Ho.
  - intros it <-. unfold accessor_at_item, element. simpl. by rewrite Ho.
  - lia.
  - lia.
  - intros Hlen. destruct shape as [|e [|??]]; simplify_eq/=.
    apply Forall2_cons_inv_r in Hc as (i & c' & Hi & ->%Forall2_nil_inv_r & ->).
    assert (row_major_offset [e] [i] = i) as Hrm by (vm_compute; lia).
    rewrite Hrm in *. split; [done|].
    unfold accessor_at_size_t, subscript. simpl.
    rewrite decide_True by done. unfold pointer_add, num_elements. simpl.
    do 3 f_equal. lia.
Qed.

Lemma accessor_forms_agree_witness :
  let acc2 := {| Array := {| base_ := {| block := 0; offset := 0 |};
                             extent_list_ := [2; 3];
                             stride_list_ := [3; 1] |} |} in
  let acc1 := {| Array := {| base_ := {| block := 0; offset := 0 |};
                             extent_list_ := [6];
                             stride_list_ := [1] |} |} in
  accessor_at_id acc2 [1; 2] = Some {| block := 0; offset := 5 |} ∧
  accessor_at_size_t acc1 4 = Some (Element {| block := 0; offset := 4 |}).
Proof.
  intros acc2 acc1.
  destruct (accessor_forms_agree acc2 [1; 2]) as (H1 & _).
  - reflexivity.
  - repeat constructor; lia.
  - destruct (accessor_forms_agree acc1 [4]) as (_ & _ & _ & H4).
    + reflexivity.
    + repeat constructor; lia.
    + split; [exact H1 | exact (proj2 (H4 eq_refl))].
Defined.

(** C6 as it is written fails for two dimensions and more: there the
    accessor has no indexing by an integer, since the operator that takes a
    [size_t] cannot be instantiated.  On shape (2,3) the coordinate (0,1)
    is addressed by the id form, at offset 1, and the flat-offset form
    gives no element for it. *)
Lemma accessor_flat_offset_two_dimensions :
  let acc := {| Array := {| base_ := {| block := 0; offset := 0 |};
                            extent_list_ := [2; 3];
                            stride_list_ := compute_strides [2; 3] |} |} in
  c_storage_order (Array acc) ∧
  in_box [0; 1] (extent_list_ (Array acc)) ∧
  accessor_at_id acc [0; 1] = Some {| block := 0; offset := 1 |} ∧
  accessor_at_size_t acc (row_major_offset [2; 3] [0; 1]) = None ∧
  ¬ (∀ (acc : accessor) (c : list Z) (p : pointer),
       c_storage_order (Array acc) →
       in_box c (extent_list_ (Array acc)) →
       accessor_at_id acc c = Some p →
       accessor_at_size_t acc (row_major_offset (extent_list_ (Array acc)) c)
         = Some (Element p)).
Proof.
  intros acc. split_and!; try done.
  - repeat constructor; lia.
  - intros H.
    specialize (H acc [0; 1] {| block := 0; offset := 1 |}).
    discriminate H; try done. repeat constructor; lia.
Qed.

(** ** Storage *)

Section MemorySpec.

Context {T : Type}.
Implicit Types (h : gmap nat (list T)) (p : pointer) (cells : list T).

Lemma fresh_block_unused h : h !! fresh (dom h) = None.
Proof. apply not_elem_of_dom, is_fresh. Qed.

Lemma load_insert_ne p b cells h :
  block p ≠ b → load p (<[b := cells]> h) = load p h.
Proof. intros Hne. unfold load. by rewrite lookup_insert_ne. Qed.

Lemma load_insert_eq p b cells h :
  block p = b → 0 ≤ offset p →
  load p (<[b := cells]> h) = cells !! Z.to_nat (offset p).
Proof.
  intros <- Ho. unfold load. by rewrite decide_True, lookup_insert_eq.
Qed.

Lemma load_live p h (v : T) : load p h = Some v → is_Some (h !! block p).
Proof.
  unfold load. destruct (decide (0 ≤ offset p)); [|done].
  destruct (h !! block p); [eauto|done].
Qed.

Lemma load_fresh p cells h (v : T) :
  load p h = Some v → load p (<[fresh (dom h) := cells]> h) = Some v.
Proof.
  intros Hv. rewrite load_insert_ne; [done|].
  intros Heq. apply load_live in Hv as [? Hv].
  rewrite Heq, fresh_block_unused in Hv. done.
Qed.

Lemma load_n_fresh p n cells (elems : list T) h :
  load_n p n h = Some elems →
  load_n p n (<[fresh (dom h) := cells]> h) = Some elems.
Proof.
  unfold load_n. rewrite !mapM_Some. intros H.
  eapply Forall2_impl; [exact H|]. intros i v. apply load_fresh.
Qed.

(** A live view can be read element by element. *)
Lemma live_load (a : multi_array_ref) h (o : Z) :
  live a h → 0 ≤ o < num_elements (extent_list_ a) →
  is_Some (load (pointer_add (base_ a) o) h).
Proof.
  intros (cells & Hcells & _ & Hbase & Hfit) Ho. unfold load. simpl.
  rewrite decide_True, Hcells by lia. simpl.
  apply lookup_lt_is_Some. lia.
Qed.

Lemma live_load_n (a : multi_array_ref) h :
  live a h → is_Some (load_n (base_ a) (num_elements (extent_list_ a)) h).
Proof.
  intros Hlive. unfold load_n. apply mapM_is_Some, Forall_forall.
  intros i Hi%elem_of_seqZ. simpl. apply live_load; [done|lia].
Qed.

Lemma load_n_lookup p n (elems : list T) h (o : Z) :
  load_n p n h = Some elems → 0 ≤ o < n →
  ∃ v, elems !! Z.to_nat o = Some v ∧ load (pointer_add p o) h = Some v.
Proof.
  unfold load_n. rewrite mapM_Some. intros H Ho.
  assert (Hi : seqZ 0 n !! Z.to_nat o = Some o).
  { rewrite lookup_seqZ. lia. }
  destruct (Forall2_lookup_l _ _ _ _ _ H Hi) as (v & Hv & Hload). eauto.
Qed.

Lemma load_n_length p n (elems : list T) h :
  load_n p n h = Some elems → length elems = Z.to_nat n.
Proof.
  unfold load_n. rewrite mapM_Some. intros H%Forall2_length.
  by rewrite length_seqZ in H.
Qed.

Lemma store_frame p1 p2 (v : T) h h' :
  block p1 ≠ block p2 → store p2 v h = Some h' → load p1 h' = load p1 h.
Proof.
  intros Hne. unfold store.
  destruct (h !! block p2) as [cells|]; [|done]. simpl.
  destruct (decide _); [|done]. intros [= <-]. by apply load_insert_ne.
Qed.

Lemma store_live p (v : T) h cells :
  h !! block p = Some cells → 0 ≤ offset p < Z.of_nat (length cells) →
  store p v h = Some (<[block p := <[Z.to_nat (offset p) := v]> cells]> h).
Proof. intros Hc Ho. unfold store. rewrite Hc. simpl. by rewrite decide_True. Qed.

(** [assign] overwrites a run of cells of the block with the input. *)
Lemma assign_from_block (input : list T) : ∀ (b o room : nat) cells h,
  h !! b = Some cells →
  (length input ≤ room)%nat → (o + length input ≤ length cells)%nat →
  assign_from {| block := b; offset := Z.of_nat o |} input room h
  = Some (<[b := take o cells ++ input ++ drop (o + length input) cells]> h).
Proof.
  induction input as [|v input IH]; intros b o room cells h Hc Hroom Hfit.
  - simpl. rewrite Nat.add_0_r, take_drop. by rewrite insert_id.
  - destruct room as [|room]; [simpl in Hroom; lia|]. simpl in *.
    rewrite (store_live _ _ _ cells) by (simpl; (done || lia)). simpl.
    rewrite Nat2Z.id. unfold pointer_add. simpl.
    replace (Z.of_nat o + 1) with (Z.of_nat (S o)) by lia.
    rewrite (IH b (S o) room (<[o := v]> cells));
      [|apply lookup_insert_eq|lia|rewrite length_insert; lia].
    rewrite insert_insert_eq. f_equal. f_equal.
    rewrite take_S_insert by lia. rewrite <- app_assoc. simpl.
    do 3 f_equal. rewrite drop_insert_lt by lia. f_equal. lia.
Qed.

End MemorySpec.

(** ** Buffers *)

(** C7.  When the iterator pair delimits the elements [elems] in live
    storage, the buffer built from the pair is defined; it owns a newly
    allocated block, its shape is [(n)] for [n] the number of elements, the
    block holds the elements in order, and the accessor reads element [i]
    of the sequence at offset [i], for every [i] (nothing past the end). *)
Theorem buffer_of_iterators_contents {T : Type} (T_default : T)
    (start_iterator : pointer) (elems : list T) (h : gmap nat (list T)) :
  load_n start_iterator (Z.of_nat (length elems)) h = Some elems →
  ∃ b h',
    buffer_of_iterators T_default start_iterator
      (pointer_add start_iterator (Z.of_nat (length elems))) h = Some (b, h') ∧
    (extent_list_ (Access b) = [Z.of_nat (length elems)]) ∧
    Allocation b = Access b ∧
    (block (base_ (Access b)) ∉ dom h) ∧
    h' !! block (base_ (Access b)) = Some elems ∧
    (∀ i : nat, read_at_size_t (get_access b) (Z.of_nat i) h' = elems !! i) ∧
    ((λ i, read_at_size_t (get_access b) i h') <$> seqZ 0 (Z.of_nat (length elems)))
      = (Some <$> elems).
Proof.
  intros Hin. set (n := Z.of_nat (length elems)) in *.
  set (b := fresh (dom h)).
  set (a := {| base_ := {| block := b; offset := 0 |};
               extent_list_ := [n]; stride_list_ := [1] |}).
  set (h1 := <[b := replicate (Z.to_nat n) T_default]> h).
  assert (Hread : ∀ i : nat,
    read_at_size_t {| Array := a |} (Z.of_nat i) (<[b := elems]> h1) = elems !! i).
  { intros i. unfold read_at_size_t, accessor_at_size_t, subscript. simpl.
    destruct (decide (0 ≤ Z.of_nat i < n)) as [Hi|Hi]; simpl.
    - unfold load. simpl. rewrite decide_True, lookup_insert_eq by lia. simpl.
      f_equal. lia.
    - symmetry. apply lookup_ge_None. lia. }
  exists {| Allocation := a; Access := a; ReadOnly := None |}, (<[b := elems]> h1).
  split_and!; try done.
  - unfold buffer_of_iterators. rewrite decide_True by done. simpl.
    rewrite Z.add_simpl_l. fold n.
    unfold multi_array_of_extents. rewrite decide_True by (simpl; lia). simpl.
    rewrite decide_True by (repeat constructor; lia). simpl.
    rewrite !Z.mul_1_r.
    rewrite (load_n_fresh _ _ _ elems) by done. simpl.
    fold b. fold h1.
    change {| block := b; offset := 0 |}
      with {| block := b; offset := Z.of_nat 0 |}.
    rewrite (assign_from_block elems b 0 _ (replicate (Z.to_nat n) T_default));
      [|apply lookup_insert_eq|lia|rewrite length_replicate; lia].
    simpl. rewrite drop_ge, app_nil_r by (rewrite length_replicate; lia).
    done.
  - apply is_fresh.
  - simpl. apply lookup_insert_eq.
  - apply list_eq. intros i. rewrite !list_lookup_fmap.
    destruct (decide (i < length elems)%nat) as [Hi|Hi].
    + rewrite lookup_seqZ_lt by lia. simpl.
      destruct (lookup_lt_is_Some_2 elems i Hi) as [v Hv].
      by rewrite Hv, Z.add_0_l, Hread, Hv.
    + rewrite lookup_seqZ_ge by lia. by rewrite lookup_ge_None_2 by lia.
Qed.

Lemma buffer_of_iterators_contents_witness :
  ∃ b h',
    buffer_of_iterators 0 {| block := 0; offset := 0 |} {| block := 0; offset := 5 |}
      ({[ 0%nat := [1; 2; 3; 4; 5] ]} : gmap nat (list Z)) = Some (b, h') ∧
    extent_list_ (Access b) = [5] ∧
    (λ i, read_at_size_t (get_access b) i h') <$> [0; 1; 2; 3; 4]
      = [Some 1; Some 2; Some 3; Some 4; Some 5].
Proof.
  destruct (buffer_of_iterators_contents 0 {| block := 0; offset := 0 |}
    [1; 2; 3; 4; 5] {[ 0%nat := [1; 2; 3; 4; 5] ]} ltac:(by vm_compute))
    as (b & h' & Hb & Hshape & _ & _ & _ & _ & Hreads).
  exists b, h'. split; [exact Hb|]. split; [exact Hshape|exact Hreads].
Defined.

(** C9 (the code differs).  The constructor from an iterator pair leaves
    [ReadOnly] without a value; the four others give it one: [true] for the
    pointer to const, [false] for a fresh allocation, for mutable host
    storage and for a copy, also a copy of a read-only buffer.  Evaluated
    here on the sequence 1,2,3,4,5 held in block 0. *)
Theorem buffer_constructors_ReadOnly :
  let h : gmap nat (list Z) := {[ 0%nat := [1; 2; 3; 4; 5] ]} in
  let start := {| block := 0; offset := 0 |} in
  let finish := {| block := 0; offset := 5 |} in
  (ReadOnly ∘ fst) <$> buffer_of_iterators 0 start finish h = Some None ∧
  (ReadOnly ∘ fst) <$> buffer_of_range 0 1 [5] h = Some (Some false) ∧
  (ReadOnly ∘ fst) <$> buffer_of_host 1 start [5] h = Some (Some false) ∧
  (ReadOnly ∘ fst) <$> buffer_of_const_host 1 start [5] h = Some (Some true) ∧
  (ReadOnly ∘ fst) <$>
    ('(b, h') ← buffer_of_const_host 1 start [5] h; buffer_copy b h')
    = Some (Some false).
Proof. by vm_compute. Qed.

Lemma buffer_ReadOnly_by_constructor {T : Type} (T_default : T)
    (b : buffer) (h h' : gmap nat (list T)) :
  (∀ dimensions r,
     buffer_of_range T_default dimensions r h = Some (b, h') →
     ReadOnly b = Some false) ∧
  (∀ dimensions host_data r,
     buffer_of_host dimensions host_data r h = Some (b, h') →
     ReadOnly b = Some false) ∧
  (∀ dimensions host_data r,
     buffer_of_const_host dimensions host_data r h = Some (b, h') →
     ReadOnly b = Some true) ∧
  (∀ b0, buffer_copy b0 h = Some (b, h') → ReadOnly b = Some false) ∧
  (∀ start_iterator end_iterator,
     buffer_of_iterators T_default start_iterator end_iterator h = Some (b, h') →
     ReadOnly b = None).
Proof.
  split_and!.
  - intros dimensions r. unfold buffer_of_range.
    destruct (multi_array_of_extents _ _ _ _) as [[??]|]; simpl; [|done].
    by intros [= <- _].
  - intros dimensions host_data r. unfold buffer_of_host.
    destruct (multi_array_empty _ _) as [??].
    destruct (make_multi_array_ref _ _ _); simpl; [|done]. by intros [= <- _].
  - intros dimensions host_data r. unfold buffer_of_const_host.
    destruct (multi_array_empty _ _) as [??].
    destruct (make_multi_array_ref _ _ _); simpl; [|done]. by intros [= <- _].
  - intros b0. unfold buffer_copy.
    destruct (multi_array_of_ref _ _) as [[??]|]; simpl; [|done].
    by intros [= <- _].
  - intros start_iterator end_iterator. unfold buffer_of_iterators.
    destruct (decide _); [|done].
    destruct (multi_array_of_extents _ _ _ _) as [[??]|]; simpl; [|done].
    destruct (load_n _ _ _); simpl; [|done].
    destruct (assign_from _ _ _ _); simpl; [|done].
    by intros [= <- _].
Qed.

Lemma num_elements_nonneg (extents : list Z) :
  Forall (λ e, 0 ≤ e) extents → 0 ≤ num_elements extents.
Proof. unfold num_elements. induction 1; simpl; lia. Qed.

(** The buffer made from a range is laid out in the C storage order over
    live storage: the constructors establish what the copy relies on. *)
Lemma buffer_of_range_well_formed {T : Type} (T_default : T)
    (dimensions : nat) (r : list Z) (h : gmap nat (list T)) :
  length r = dimensions → Forall (λ e, 0 ≤ e) r →
  ∃ b h', buffer_of_range T_default dimensions r h = Some (b, h') ∧
          extent_list_ (Access b) = r ∧
          c_storage_order (Access b) ∧ live (Access b) h'.
Proof.
  intros Hlen Hr. unfold buffer_of_range, multi_array_of_extents.
  rewrite decide_True by lia. rewrite <- Hlen, firstn_all.
  rewrite decide_True by done. simpl.
  eexists _, _. split; [done|]. simpl. split; [done|]. split; [done|].
  eexists. simpl. rewrite lookup_insert_eq. split_and!; try done.
  rewrite length_replicate. pose proof (num_elements_nonneg r Hr). lia.
Qed.

(** C5.  For a buffer [b1] over live storage laid out in the C storage
    order, the copy constructor is defined and gives a buffer [b2] that
    owns a block allocated by the construction, different from the block of
    [b1], with the shape of [b1]; at construction every coordinate reads
    through [b2] what it reads through [b1], and what is read through [b1]
    is not changed by the construction.  Afterwards every in-bounds write
    through an accessor of [b2] is defined, and no write through an
    accessor of [b2], in any of the indexing forms, changes what any
    accessor of [b1] reads, in any of the indexing forms. *)
Theorem buffer_copy_isolated {T : Type} (b1 : buffer) (h : gmap nat (list T)) :
  c_storage_order (Access b1) → live (Access b1) h →
  ∃ b2 h',
    buffer_copy b1 h = Some (b2, h') ∧
    (block (base_ (Access b2)) ∉ dom h) ∧
    block (base_ (Access b2)) ≠ block (base_ (Access b1)) ∧
    Allocation b2 = Access b2 ∧
    extent_list_ (Access b2) = extent_list_ (Access b1) ∧
    live (Access b2) h' ∧
    (∀ Index, read_at_id (get_access b2) Index h'
              = read_at_id (get_access b1) Index h) ∧
    (∀ p1, accessor_refers (get_access b1) p1 → load p1 h' = load p1 h) ∧
    (∀ Index v, in_box Index (extent_list_ (Access b2)) →
       is_Some (write_at_id (get_access b2) Index v h')) ∧
    (∀ p2 v h'', accessor_refers (get_access b2) p2 →
       store p2 v h' = Some h'' →
       ∀ p1, accessor_refers (get_access b1) p1 → load p1 h'' = load p1 h') ∧
    (∀ I2 v h'', write_at_id (get_access b2) I2 v h' = Some h'' →
       ∀ I1, read_at_id (get_access b1) I1 h''
             = read_at_id (get_access b1) I1 h).
Proof.
  intros Hc Hlive.
  destruct (live_load_n _ _ Hlive) as [cells Hcells].
  pose proof Hlive as (cells1 & Hcells1 & Hext & Hbase & Hfit).
  pose proof (num_elements_nonneg _ Hext) as Hn.
  pose proof (load_n_length _ _ _ _ Hcells) as Hlen.
  set (b := fresh (dom h)).
  set (a2 := {| base_ := {| block := b; offset := 0 |};
                extent_list_ := extent_list_ (Access b1);
                stride_list_ := stride_list_ (Access b1) |}).
  assert (Hb : b ≠ block (base_ (Access b1))).
  { intros Heq. unfold b in Heq. rewrite <- Heq, fresh_block_unused in Hcells1.
    done. }
  assert (Hold : ∀ p1, accessor_refers (get_access b1) p1 →
                       load p1 (<[b := cells]> h) = load p1 h).
  { intros p1 Hp1%accessor_refers_block. apply load_insert_ne.
    simpl in Hp1. congruence. }
  assert (Hframe : ∀ p2 v h'', accessor_refers {| Array := a2 |} p2 →
            store p2 v (<[b := cells]> h) = Some h'' →
            ∀ p1, accessor_refers (get_access b1) p1 →
                  load p1 h'' = load p1 (<[b := cells]> h)).
  { intros p2 v h'' Hp2%accessor_refers_block Hst p1 Hp1%accessor_refers_block.
    eapply store_frame; [|exact Hst]. simpl in *. congruence. }
  exists {| Allocation := a2; Access := a2; ReadOnly := Some false |},
         (<[b := cells]> h).
  split_and!; try done.
  - unfold buffer_copy, multi_array_of_ref. by rewrite Hcells.
  - apply is_fresh.
  - exists cells. simpl. rewrite lookup_insert_eq. split_and!; try done. lia.
  - intros Index. unfold read_at_id, accessor_at_id, element. simpl.
    rewrite Hc.
    destruct (element_offset Index _ _) as [o|] eqn:Ho; [|done]. simpl.
    pose proof (element_offset_bounds _ _ _ Ho) as Hob.
    destruct (load_n_lookup _ _ _ _ o Hcells Hob) as (v & Hv & Hload).
    rewrite Hload, load_insert_eq by (simpl; (done || lia)). simpl.
    by rewrite Z.add_0_l.
  - intros Index v HI. unfold write_at_id, accessor_at_id, element.
    simpl in *. rewrite Hc.
    destruct (element_offset_row_major _ _ HI) as (-> & Hob). simpl.
    rewrite (store_live _ _ _ cells);
      [eauto|by apply lookup_insert_eq|simpl; lia].
  - intros I2 v h'' Hw I1. unfold write_at_id in Hw.
    destruct (accessor_at_id _ I2) as [p2|] eqn:Hp2; [|done]. simpl in Hw.
    unfold read_at_id.
    destruct (accessor_at_id (get_access b1) I1) as [p1|] eqn:Hp1; [|done].
    simpl. rewrite (Hframe p2 v h''), Hold; try done.
    + left. eauto.
    + left. eauto.
    + left. eauto.
Qed.

Lemma buffer_copy_isolated_witness :
  let h : gmap nat (list Z) := {[ 0%nat := [10; 11; 12; 13; 14; 15] ]} in
  let b1 := {| Allocation := {| base_ := {| block := 1; offset := 0 |};
                                extent_list_ := [0; 0]; stride_list_ := [0; 1] |};
               Access := {| base_ := {| block := 0; offset := 0 |};
                            extent_list_ := [2; 3]; stride_list_ := [3; 1] |};
               ReadOnly := Some true |} in
  ∃ b2 h', buffer_copy b1 h = Some (b2, h') ∧
    ∀ I2 v h'', write_at_id (get_access b2) I2 v h' = Some h'' →
      ∀ I1, read_at_id (get_access b1) I1 h'' = read_at_id (get_access b1) I1 h.
Proof.
  intros h b1.
  destruct (buffer_copy_isolated b1 h) as (b2 & h' & Hb2 & H); [reflexivity| |].
  - exists [10; 11; 12; 13; 14; 15]. split_and!; try done.
    repeat constructor; lia.
  - exists b2, h'. split; [exact Hb2|].
    exact (proj2 (proj2 (proj2 (proj2 (proj2 (proj2 (proj2 (proj2 (proj2 H))))))))).
Defined.

(** * Further properties *)

(** ** Order and edge cases of the flat launch *)

Lemma StronglySorted_seqZ (m n : Z) : StronglySorted Z.lt (seqZ m n).
Proof.
  remember (Z.to_nat n) as k eqn:Hk. revert m n Hk.
  induction k as [|k IH]; intros m n Hk.
  - rewrite seqZ_nil by lia. constructor.
  - rewrite seqZ_cons by lia. constructor.
    + apply IH. lia.
    + apply Forall_seqZ. intros m' Hm'. lia.
Qed.

Lemma lex_lt_blocks (l : list Z) (cs : list (list Z)) :
  StronglySorted Z.lt l → StronglySorted lex_lt cs →
  StronglySorted lex_lt (l ≫= λ i, (i ::.) <$> cs).
Proof.
  intros Hl Hcs. induction Hl as [|i l Hl IH Hi]; [constructor|].
  rewrite bind_cons. apply StronglySorted_app. split_and!.
  - intros x1 x2 (c1 & -> & _)%list_elem_of_fmap
      (j & (c2 & -> & _)%list_elem_of_fmap & Hj)%list_elem_of_bind.
    simpl. left. by apply (proj1 (Forall_forall _ _) Hi).
  - eapply (StronglySorted_fmap (cons i) lex_lt lex_lt); [|exact Hcs].
    intros a b Hab. simpl. by right.
  - done.
Qed.

Lemma coordinates_lex_sorted (sizes : list Z) :
  StronglySorted lex_lt (coordinates sizes).
Proof.
  induction sizes as [|n sizes IH]; simpl.
  - repeat constructor.
  - apply lex_lt_blocks; [apply StronglySorted_seqZ | done].
Qed.

(** X1.  In the sequential build (without [_OPENMP]) the flat launch
    calls the kernel in strictly increasing lexicographic order of the
    coordinates, the first dimension varying slowest and the last one
    fastest. *)
Theorem parallel_for_lexicographic (D : nat) (sizes : list Z) :
  length sizes = D →
  ∃ trace, parallel_for D sizes (λ c t, t ++ [c]) [] = Some trace ∧
           StronglySorted lex_lt trace ∧
           ∀ c, c ∈ trace ↔ in_box c sizes.
Proof.
  intros Hlen. exists (coordinates sizes). split_and!.
  - rewrite parallel_for_fold by done. by rewrite foldl_snoc_id.
  - apply coordinates_lex_sorted.
  - intros c. apply elem_of_coordinates.
Qed.

Lemma parallel_for_lexicographic_witness :
  ∃ trace, parallel_for 2 [2; 2] (λ c t, t ++ [c]) [] = Some trace ∧
           StronglySorted lex_lt trace ∧
           ∀ c, c ∈ trace ↔ in_box c [2; 2].
Proof. exact (parallel_for_lexicographic 2 [2; 2] eq_refl). Defined.

(** X2.  A size that is zero or negative in some dimension gives no
    kernel call at all, whatever the other sizes are: the loop bound is a
    signed comparison. *)
Theorem parallel_for_nonpositive_size {K} (D : nat) (sizes : list Z)
    (f : list Z → K → K) (k : K) :
  length sizes = D →
  Exists (λ n, n ≤ 0) sizes →
  parallel_for D sizes f k = Some k ∧
  parallel_for D sizes (λ c t, t ++ [c]) [] = Some [].
Proof.
  intros Hlen Hex. rewrite !parallel_for_fold by done.
  by rewrite coordinates_nonpositive.
Qed.

Lemma parallel_for_nonpositive_size_witness :
  parallel_for 3 [4; -2; 5] (λ c t, t ++ [c]) [] = Some [].
Proof.
  refine (proj2 (parallel_for_nonpositive_size (K := nat) 3 [4; -2; 5]
    (λ _ k, S k) 0%nat eq_refl _)).
  apply Exists_cons_tl, Exists_cons_hd. lia.
Defined.

Lemma for_index_ext {St} (body1 body2 : Z → St → option St) :
  (∀ i s, body1 i s = body2 i s) →
  ∀ n i s, for_index n i body1 s = for_index n i body2 s.
Proof.
  intros Hb. induction n as [|n IH]; intros i s; [done|]. simpl.
  rewrite Hb. destruct (body2 i s); simpl; [apply IH|done].
Qed.

(** The iterator reads the range at the positions below
    [Range::dimensionality] only. *)
Lemma ParallelForIterate_ext {St} (D : nat) (r r' : list Z)
    (index_get : St → list Z) (index_set : list Z → St → St)
    (f : list Z → St → option St) :
  (∀ i, (i < D)%nat → r !! i = r' !! i) →
  ∀ level s, (level ≤ D)%nat →
    ParallelForIterate D r index_get index_set f level s
    = ParallelForIterate D r' index_get index_set f level s.
Proof.
  intros Hr. induction level as [|l IH]; intros s Hl; [done|].
  cbn [ParallelForIterate]. rewrite Hr by lia.
  destruct (r' !! (D - S l)%nat) as [e|]; [|done]. cbn [mbind option_bind].
  apply for_index_ext. intros i s0.
  destruct (vec_set _ _ _); [|done]. cbn [mbind option_bind]. apply IH. lia.
Qed.

(** X3.  A range that holds more components than its dimensionality (the
    vector type allows it) is launched as its first [Dimensions]
    components: the others are never read. *)
Theorem parallel_for_extra_components {K} (D : nat) (r : list Z)
    (f : list Z → K → K) (k : K) :
  (D ≤ length r)%nat →
  parallel_for D r f k = parallel_for D (take D r) f k ∧
  parallel_for D r f k
    = Some (foldl (λ k c, f c k) k (coordinates (take D r))).
Proof.
  intros Hlen.
  assert (Heq : parallel_for D r f k = parallel_for D (take D r) f k).
  { unfold parallel_for. f_equal. apply ParallelForIterate_ext; [|done].
    intros i Hi. by rewrite lookup_take_lt. }
  split; [done|]. rewrite Heq. apply parallel_for_fold.
  rewrite length_take. lia.
Qed.

Lemma parallel_for_extra_components_witness :
  parallel_for 2 [2; 1; 7] (λ c t, t ++ [c]) [] = Some [[0; 0]; [1; 0]].
Proof.
  refine (proj2 (parallel_for_extra_components (K := list (list Z)) 2 [2; 1; 7]
    (λ c t, t ++ [c]) [] _)).
  simpl. lia.
Defined.

Lemma for_index_first_fails {St} (body : Z → St → option St) n i s :
  body i s = None → for_index (S n) i body s = None.
Proof. intros H. simpl. by rewrite H. Qed.

Lemma ParallelForIterate_short {St} (D : nat) (r : list Z)
    (index_get : St → list Z) (index_set : list Z → St → St)
    (f : list Z → St → option St) :
  (length r < D)%nat → Forall (λ n, 0 < n) r →
  ∀ level s, (D - level ≤ length r)%nat →
    ParallelForIterate D r index_get index_set f level s = None.
Proof.
  intros Hshort Hpos. induction level as [|l IH]; intros s Hl; [lia|].
  cbn [ParallelForIterate].
  destruct (r !! (D - S l)%nat) as [e|] eqn:He; [|done].
  cbn [mbind option_bind].
  pose proof (Forall_lookup_1 _ _ _ _ Hpos He) as Hepos. simpl in Hepos.
  apply lookup_lt_Some in He.
  replace (Z.to_nat e) with (S (Z.to_nat e - 1)) by lia.
  apply for_index_first_fails.
  destruct (vec_set _ _ _); [|done]. cbn [mbind option_bind]. apply IH. lia.
Qed.

(** X4.  A range that holds fewer components than its dimensionality,
    all of them positive, makes the flat launch undefined: the iterator
    subscripts the vector past its end before any kernel call. *)
Theorem parallel_for_missing_components {K} (D : nat) (r : list Z)
    (f : list Z → K → K) (k : K) :
  (length r < D)%nat → Forall (λ n, 0 < n) r →
  parallel_for D r f k = None.
Proof.
  intros Hshort Hpos. unfold parallel_for.
  by rewrite ParallelForIterate_short by (done || lia).
Qed.

Lemma parallel_for_missing_components_witness :
  parallel_for 2 [5] (λ c t, t ++ [c]) [] = None.
Proof.
  refine (parallel_for_missing_components (K := list (list Z)) 2 [5]
    (λ c t, t ++ [c]) [] _ _).
  - simpl. lia.
  - repeat constructor.
Defined.

(** ** The element-wise operators *)

Lemma foldl_in_ext {A B} (h1 h2 : A → B → A) (l : list B) (a : A) :
  (∀ a x, x ∈ l → h1 a x = h2 a x) → foldl h1 a l = foldl h2 a l.
Proof.
  revert a. induction l as [|x l IH]; intros a Hh; [done|]. simpl.
  rewrite Hh by (by left). apply IH. intros a' y Hy. apply Hh. by right.
Qed.

Lemma foldl_None {A B} (h : option A → B → option A) (l : list B) :
  (∀ x, h None x = None) → foldl h None l = None.
Proof. intros Hh. induction l as [|x l IH]; [done|]. simpl. by rewrite Hh. Qed.

(** What a defined result tells about the operands, slot by slot. *)
Lemma elementwise_prefix_inv op D (a b : list Z) k : ∀ res,
  foldl (λ (acc : option (list Z)) (i : nat),
           result ← acc; x ← a !! i; y ← b !! i; v ← op x y;
           vec_set i v result)
        (Some (range_default D)) (seq 0 k) = Some res →
  length res = D ∧
  ∀ i, (i < k)%nat →
    (i < D)%nat ∧
    ∃ x y v, a !! i = Some x ∧ b !! i = Some y ∧ op x y = Some v ∧
             res !! i = Some v.
Proof.
  induction k as [|k IH]; intros res Hres.
  - simpl in Hres. simplify_eq. split; [apply length_replicate|lia].
  - rewrite seq_S, foldl_app in Hres. simpl in Hres.
    destruct (foldl _ _ (seq 0 k)) as [res'|] eqn:Hres'; [|done].
    destruct (IH res' eq_refl) as (Hlen & Hslots). simpl in Hres.
    destruct (a !! k) as [x|] eqn:Hx; [|done]. simpl in Hres.
    destruct (b !! k) as [y|] eqn:Hy; [|done]. simpl in Hres.
    destruct (op x y) as [v|] eqn:Hv; [|done]. simpl in Hres.
    unfold vec_set in Hres. destruct (decide _) as [Hk|]; [|done].
    simplify_eq. split; [by rewrite length_insert|].
    intros i Hi. destruct (decide (i = k)) as [->|Hne].
    + split; [lia|]. exists x, y, v. split_and!; try done.
      by apply list_lookup_insert_eq.
    + destruct (Hslots i ltac:(lia)) as (? & x' & y' & v' & ? & ? & ? & ?).
      split; [done|]. exists x', y', v'. split_and!; try done.
      by rewrite list_lookup_insert_ne.
Qed.

Lemma elementwise_inv op D (a b res : list Z) :
  elementwise op D a b = Some res →
  length res = D ∧ (D ≤ length a)%nat ∧ (D ≤ length b)%nat ∧
  ∀ i, (i < D)%nat →
    ∃ x y v, a !! i = Some x ∧ b !! i = Some y ∧ op x y = Some v ∧
             res !! i = Some v.
Proof.
  intros Hres. destruct (elementwise_prefix_inv op D a b D res Hres)
    as (Hlen & Hslots).
  split; [done|].
  assert (Hall : ∀ i, (i < D)%nat →
    ∃ x y v, a !! i = Some x ∧ b !! i = Some y ∧ op x y = Some v ∧
             res !! i = Some v) by (intros i Hi; by apply Hslots).
  split_and!; [| |done].
  - destruct D as [|D']; [lia|].
    destruct (Hall D' ltac:(lia)) as (x & _ & _ & Hx%lookup_lt_Some & _). lia.
  - destruct D as [|D']; [lia|].
    destruct (Hall D' ltac:(lia)) as (_ & y & _ & _ & Hy%lookup_lt_Some & _). lia.
Qed.

Lemma elementwise_take op D (a b : list Z) :
  elementwise op D a b = elementwise op D (take D a) (take D b).
Proof.
  unfold elementwise. apply foldl_in_ext. intros acc i Hi%elem_of_seq.
  by rewrite !lookup_take_lt by lia.
Qed.

(** X5.  Each of the three operators [+], [*] and [/] on ranges reads
    the first [Dimensions] components of its operands and nothing else, and a
    defined result has exactly [Dimensions] components; the operands
    must hold at least that many. *)
Theorem range_operators_dimensions (D : nat) (a b : list Z) :
  range_add D a b = range_add D (take D a) (take D b) ∧
  range_mul D a b = range_mul D (take D a) (take D b) ∧
  range_div D a b = range_div D (take D a) (take D b) ∧
  ∀ res, (range_add D a b = Some res ∨ range_mul D a b = Some res ∨
          range_div D a b = Some res) →
         length res = D ∧ (D ≤ length a)%nat ∧ (D ≤ length b)%nat.
Proof.
  split_and!; try apply elementwise_take.
  intros res [H | [H | H]]; apply elementwise_inv in H; tauto.
Qed.

Lemma range_operators_dimensions_witness :
  ∃ res, range_add 2 [1; 2; 9] [3; 4] = Some res ∧ length res = 2%nat.
Proof.
  exists [4; 6]. split; [reflexivity|].
  exact (proj1 (proj2 (proj2 (proj2 (range_operators_dimensions 2 [1; 2; 9] [3; 4])))
    [4; 6] (or_introl eq_refl))).
Defined.

(** X6.  Addition and multiplication of ranges are commutative, also in
    the cases where they are undefined. *)
Theorem range_add_mul_comm (D : nat) (a b : list Z) :
  range_add D a b = range_add D b a ∧ range_mul D a b = range_mul D b a.
Proof.
  split; unfold range_add, range_mul, elementwise; apply foldl_pointwise;
    intros [res|] i; simpl; try done;
    destruct (a !! i) as [x|], (b !! i) as [y|]; simpl; try done.
  - unfold Int.add. by rewrite Z.add_comm.
  - unfold Int.mul. by rewrite Z.mul_comm.
Qed.

Lemma lookup_seq_split (D i : nat) :
  (i < D)%nat → seq 0 D = seq 0 i ++ i :: seq (S i) (D - S i).
Proof.
  intros Hi. replace D with (i + S (D - S i))%nat at 1 by lia.
  by rewrite seq_app.
Qed.

Lemma round_up_div_zero x : round_up_div x 0 = None.
Proof.
  unfold round_up_div. destruct (Int.add x 0); simpl; [|done].
  destruct (Int.sub _ 1); simpl; [|done]. unfold Int.div.
  by rewrite decide_True.
Qed.

Lemma range_div_zero (D i : nat) (a b : list Z) :
  (i < D)%nat → b !! i = Some 0 → range_div D a b = None.
Proof.
  intros Hi Hb. unfold range_div, elementwise.
  rewrite (lookup_seq_split D i Hi), foldl_app. simpl.
  rewrite Hb.
  assert (Hstep : (foldl (λ (acc : option (list Z)) (i : nat),
      result ← acc; x ← a !! i; y ← b !! i; v ← round_up_div x y;
      vec_set i v result) (Some (range_default D)) (seq 0 i)
      ≫= λ result, a !! i ≫= λ x, Some 0 ≫= λ y,
            round_up_div x y ≫= λ v, vec_set i v result) = None).
  { destruct (foldl _ _ (seq 0 i)); simpl; [|done].
    destruct (a !! i); simpl; [|done]. by rewrite round_up_div_zero. }
  rewrite Hstep. by apply foldl_None.
Qed.

(** X7.  A divisor with a zero among its first [Dimensions] components
    makes the division of ranges undefined, whatever the dividend is; so
    the group range of an nd_range with a zero local size is undefined
    and the grouped launch over it as well, also when the global size is
    zero too. *)
Theorem zero_local_size_undefined {K} (D i : nat) (nd : nd_range)
    (kern : item → K → K) (k : K) :
  (i < D)%nat → LocalRange nd !! i = Some 0 →
  (∀ a, range_div D a (LocalRange nd) = None) ∧
  get_group_range D nd = None ∧
  parallel_for_nd D nd kern k = None.
Proof.
  intros Hi Hz.
  assert (Hdiv : ∀ a, range_div D a (LocalRange nd) = None)
    by (intros a; by apply (range_div_zero D i)).
  split_and!; [done|apply Hdiv|].
  unfold parallel_for_nd, get_group_range. by rewrite Hdiv.
Qed.

Lemma zero_local_size_undefined_witness :
  parallel_for_nd 1 (make_nd_range 1 [0] [0] None) (λ it t, t ++ [it]) [] = None.
Proof.
  refine (proj2 (proj2 (zero_local_size_undefined (K := list item) 1 0
    (make_nd_range 1 [0] [0] None) (λ it t, t ++ [it]) [] _ eq_refl))).
  lia.
Defined.

(** X8.  For non-negative global sizes and positive local sizes (with
    [GlobalSize[i] + LocalSize[i]] representable) the group range times the
    local range is defined and covers the global range: in every
    dimension it is the least multiple of the local size that is not below the
    global size, so it equals the global size exactly where that one is a
    multiple of the local size. *)
Theorem group_range_covers (D : nat) (nd : nd_range) :
  length (GlobalRange nd) = D → length (LocalRange nd) = D →
  Forall2 (λ g l, 0 ≤ g ∧ 0 < l ∧ g + l ≤ Int.INTPTR_MAX)
    (GlobalRange nd) (LocalRange nd) →
  ∃ groups covered,
    get_group_range D nd = Some groups ∧
    range_mul D groups (LocalRange nd) = Some covered ∧
    length covered = D ∧
    ∀ i g l c, GlobalRange nd !! i = Some g → LocalRange nd !! i = Some l →
               covered !! i = Some c →
               g ≤ c < g + l ∧ (l | c) ∧ (c = g ↔ (l | g)).
Proof.
  intros HG HL Hwf. pose proof INTPTR_MIN_neg.
  exists (zip_with ceil_div (GlobalRange nd) (LocalRange nd)),
         (zip_with Z.mul (zip_with ceil_div (GlobalRange nd) (LocalRange nd))
            (LocalRange nd)).
  split_and!.
  - unfold get_group_range. by apply range_div_ceil.
  - apply elementwise_zip_with; [rewrite length_zip_with; lia|done|].
    apply Forall2_same_length_lookup_2; [rewrite length_zip_with; lia|].
    intros i q l (g & l' & -> & Hg & Hl')%lookup_zip_with_Some Hl.
    assert (l' = l) as -> by congruence.
    destruct (Forall2_lookup_lr _ _ _ _ _ _ Hwf Hg Hl) as (? & ? & ?).
    pose proof (ceil_div_bounds g l ltac:(done)).
    apply checked_Some. nia.
  - rewrite !length_zip_with. lia.
  - intros i g l c Hg Hl (q & l' & -> & (g' & l'' & -> & Hg' & Hl'')%lookup_zip_with_Some
                            & Hl')%lookup_zip_with_Some.
    assert (g' = g) as -> by congruence.
    assert (l'' = l) as -> by congruence.
    assert (l' = l) as -> by congruence.
    destruct (Forall2_lookup_lr _ _ _ _ _ _ Hwf Hg Hl) as (? & ? & ?).
    pose proof (ceil_div_bounds g l ltac:(done)).
    split_and!; [nia|nia|by exists (ceil_div g l)|].
    split.
    + intros <-. by exists (ceil_div g l).
    + intros Hdiv. rewrite ceil_div_exact by done.
      pose proof (exact_div_mul g l ltac:(done) Hdiv). lia.
Qed.

Lemma group_range_covers_witness :
  ∃ groups covered,
    get_group_range 2 (make_nd_range 2 [10; 9] [3; 3] None) = Some groups ∧
    range_mul 2 groups [3; 3] = Some covered ∧ length covered = 2%nat.
Proof.
  destruct (group_range_covers 2 (make_nd_range 2 [10; 9] [3; 3] None))
    as (groups & covered & H1 & H2 & H3 & _).
  - reflexivity.
  - reflexivity.
  - repeat constructor; try lia; by vm_compute.
  - exists groups, covered. split; [exact H1|]. split; [exact H2|exact H3].
Defined.

(** ** Grouped launch: any group count *)

Section GroupedLaunchAnyCount.

Context {K : Type}.
Variable D : nat.
Variable nd : nd_range.
Variable kern : item → K → K.
Variable count : list Z.

Hypothesis local_length : length (LocalRange nd) = D.
Hypothesis count_length : length count = D.
Hypothesis count_fits :
  Forall2 (λ l c, 0 < l ∧ l * c ≤ Int.INTPTR_MAX) (LocalRange nd) count.

Lemma count_slot G i l y :
  in_box G count → LocalRange nd !! i = Some l → G !! i = Some y →
  0 < l ∧ 0 ≤ y ∧ l * (y + 1) ≤ Int.INTPTR_MAX.
Proof.
  intros HG Hl Hy.
  destruct (Forall2_lookup_l _ _ _ _ _ HG Hy) as (c & Hc & Hyc).
  destruct (Forall2_lookup_lr _ _ _ _ _ _ count_fits Hl Hc) as (? & ?). nia.
Qed.

Lemma scaled_count G :
  in_box G count →
  range_mul D (LocalRange nd) G = Some (zip_with Z.mul (LocalRange nd) G).
Proof.
  intros HG. pose proof INTPTR_MIN_neg.
  assert (length G = D) by (by rewrite (in_box_length _ _ HG)).
  apply elementwise_zip_with; [done..|].
  apply Forall2_same_length_lookup_2; [lia|]. intros i l y Hl Hy.
  destruct (count_slot G i l y) as (? & ? & ?); [done..|].
  apply checked_Some. nia.
Qed.

Lemma global_of_local_count G L :
  in_box G count → in_box L (LocalRange nd) →
  range_add D L (zip_with Z.mul (LocalRange nd) G)
  = Some (zip_with Z.add L (zip_with Z.mul (LocalRange nd) G)).
Proof.
  intros HG HL. pose proof INTPTR_MIN_neg.
  assert (length G = D) by (by rewrite (in_box_length _ _ HG)).
  assert (length L = D) by (by rewrite (in_box_length _ _ HL)).
  apply elementwise_zip_with; [done| |].
  { rewrite length_zip_with. lia. }
  apply Forall2_same_length_lookup_2; [rewrite length_zip_with; lia|].
  intros i x m Hx Hm.
  apply lookup_zip_with_Some in Hm as (l & y & -> & Hl & Hy).
  destruct (count_slot G i l y) as (? & ? & ?); [done..|].
  destruct (Forall2_lookup_lr _ _ _ _ _ _ HL Hx Hl) as [? ?].
  apply checked_Some. nia.
Qed.

Lemma work_group_any_count G (s : launch_state K) :
  in_box G count → Group s = G → NDRange (Index s) = nd →
  length (Local s) = D →
  ∃ s', iterateInWorkGroup D kern (LocalRange nd) G s = Some s' ∧
        Group s' = G ∧ NDRange (Index s') = nd ∧ length (Local s') = D ∧
        kernel_state s' =
          foldl (λ k L, kern {| GlobalIndex :=
                                  zip_with Z.add L (zip_with Z.mul (LocalRange nd) G);
                                LocalIndex := L; NDRange := nd |} k)
            (kernel_state s) (coordinates (LocalRange nd)).
Proof.
  intros HG HGs Hnd Hlen. unfold iterateInWorkGroup.
  destruct (ParallelForIterate_spec D (LocalRange nd) Local with_Local
    (reconstructItem D kern (LocalRange nd))
    (λ s a, Group s = G ∧ NDRange (Index s) = nd ∧ kernel_state s = a)
    (λ L k, kern {| GlobalIndex :=
                      zip_with Z.add L (zip_with Z.mul (LocalRange nd) G);
                    LocalIndex := L; NDRange := nd |} k))
    with (level := D) (s := s) (a := kernel_state s)
    as (s' & Hs' & Hlen' & _ & HG' & Hnd' & Hk'); try done.
  - intros L s0 a HL HLs (HG0 & Hnd0 & Hk0). unfold reconstructItem.
    rewrite HG0, HLs, scaled_count by done. simpl.
    rewrite global_of_local_count by done. simpl.
    eexists. split; [done|]. simpl. split; [done|]. split; [done|].
    split; [done|]. rewrite Hk0. f_equal. unfold set_global, set_local. simpl.
    by rewrite Hnd0.
  - rewrite Nat.sub_diag. constructor.
  - exists s'. rewrite Nat.sub_diag in Hk'. simpl in Hk'. by rewrite Hk'.
Qed.

Lemma iterate_groups_any_count (s : launch_state K) :
  NDRange (Index s) = nd → length (Group s) = D → length (Local s) = D →
  kernel_state <$> iterate_groups D kern count (LocalRange nd) s
  = Some (foldl (λ k it, kern it k) (kernel_state s) (nd_items nd count)).
Proof.
  intros Hnd HlenG HlenL. unfold iterate_groups.
  destruct (ParallelForIterate_spec D count Group with_Group
    (iterateInWorkGroup D kern (LocalRange nd))
    (λ s a, NDRange (Index s) = nd ∧ length (Local s) = D ∧ kernel_state s = a)
    (λ G k, foldl (λ k L, kern {| GlobalIndex :=
                      zip_with Z.add L (zip_with Z.mul (LocalRange nd) G);
                    LocalIndex := L; NDRange := nd |} k) k
              (coordinates (LocalRange nd)))) with (level := D) (s := s)
    (a := kernel_state s) as (s' & Hs' & _ & _ & _ & _ & Hk'); try done.
  - intros G s0 a HG HGs (Hnd0 & HL0 & Hk0).
    destruct (work_group_any_count G s0) as (s1 & Hs1 & ? & ? & ? & Hk1);
      [done..|].
    exists s1. rewrite <- Hk0. by rewrite Hk1.
  - rewrite Nat.sub_diag. constructor.
  - rewrite Hs'. simpl. rewrite Hk', Nat.sub_diag. simpl. f_equal.
    unfold nd_items. rewrite foldl_bind.
    apply foldl_pointwise. intros k G. by rewrite foldl_bind.
Qed.

End GroupedLaunchAnyCount.

(** A box whose sizes are multiples [l * c] is tiled by [c] groups of
    [l] points in every dimension. *)

Lemma split_coordinate_tiles (ls count : list Z) :
  Forall2 (λ l c, 0 < l ∧ 0 ≤ c) ls count →
  ∀ c, in_box c (zip_with Z.mul ls count) →
    in_box (zip_with Z.div c ls) count ∧
    in_box (zip_with Z.modulo c ls) ls ∧
    zip_with Z.add (zip_with Z.modulo c ls)
      (zip_with Z.mul ls (zip_with Z.div c ls)) = c.
Proof.
  unfold in_box.
  induction 1 as [|l n ls count (Hl & Hn) _ IH]; intros c Hc; simpl in Hc.
  - apply Forall2_nil_inv_r in Hc as ->. by repeat split; constructor.
  - apply Forall2_cons_inv_r in Hc as (x & c' & Hx & Hc' & ->).
    destruct (IH c' Hc') as (IH1 & IH2 & IH3). simpl.
    pose proof (Z.mod_pos_bound x l Hl).
    pose proof (Z.div_mod x l ltac:(lia)).
    split; [|split].
    + constructor; [|done]. split; [apply Z.div_pos; lia|].
      apply Z.div_lt_upper_bound; lia.
    + by constructor.
    + rewrite IH3. f_equal. lia.
Qed.

Lemma product_tiles (ls count : list Z) :
  Forall2 (λ l c, 0 < l ∧ 0 ≤ c) ls count →
  Forall (λ n, 0 ≤ n) ls ∧ Forall (λ n, 0 ≤ n) count ∧
  Forall (λ n, 0 ≤ n) (zip_with Z.mul ls count) ∧
  product count * product ls = product (zip_with Z.mul ls count).
Proof.
  unfold product.
  induction 1 as [|l n ls count (Hl & Hn) _ (IH1 & IH2 & IH3 & IH4)]; simpl.
  - by repeat split; constructor.
  - split_and!.
    + constructor; [lia|done].
    + constructor; [lia|done].
    + constructor; [nia|done].
    + rewrite <- IH4. nia.
Qed.

Lemma nd_items_tile_any_count (r : nd_range) (count : list Z) :
  Forall2 (λ l c, 0 < l ∧ 0 ≤ c) (LocalRange r) count →
  coordinates (zip_with Z.mul (LocalRange r) count)
  ≡ₚ get_global <$> nd_items r count.
Proof.
  intros Hwf. apply submseteq_length_Permutation.
  - apply NoDup_submseteq; [apply NoDup_coordinates|].
    intros c Hc%elem_of_coordinates.
    destruct (split_coordinate_tiles _ _ Hwf c Hc) as (HG & HL & Heq).
    apply list_elem_of_fmap.
    exists {| GlobalIndex := c;
              LocalIndex := zip_with Z.modulo c (LocalRange r);
              NDRange := r |}.
    split; [done|]. apply elem_of_nd_items.
    eexists _, _. split; [exact HG|]. split; [exact HL|]. by rewrite Heq.
  - destruct (product_tiles _ _ Hwf) as (Hls & Hcnt & Hmul & Hprod).
    rewrite length_fmap, length_nd_items.
    apply Nat2Z.inj_le. rewrite Nat2Z.inj_mul.
    rewrite !length_coordinates by done. lia.
Qed.

(** X9.  Incomplete work-groups are not clipped.  For non-negative
    global sizes and positive local sizes (with [GlobalSize[i] + LocalSize[i]]
    representable) the grouped launch runs [ceil(GlobalSize[i] / LocalSize[i])]
    whole groups in every dimension: the global coordinates passed to the
    kernel are, each once, the points of the box whose sizes are the global
    sizes rounded up to multiples of the local sizes.  Every point of the
    global box is among them, and so is every point of the rounded box
    that lies outside the global box. *)
Theorem parallel_for_nd_rounds_up {K} (D : nat) (nd : nd_range)
    (kern : item → K → K) (k : K) :
  length (GlobalRange nd) = D → length (LocalRange nd) = D →
  Forall2 (λ g l, 0 ≤ g ∧ 0 < l ∧ g + l ≤ Int.INTPTR_MAX)
    (GlobalRange nd) (LocalRange nd) →
  let groups := zip_with ceil_div (GlobalRange nd) (LocalRange nd) in
  let rounded := zip_with Z.mul (LocalRange nd) groups in
  parallel_for_nd D nd kern k
    = Some (foldl (λ k it, kern it k) k (nd_items nd groups)) ∧
  parallel_for_nd D nd (λ it t, t ++ [it]) [] = Some (nd_items nd groups) ∧
  get_global <$> nd_items nd groups ≡ₚ coordinates rounded ∧
  Forall2 (λ g c, g ≤ c) (GlobalRange nd) rounded ∧
  (∀ c, in_box c (GlobalRange nd) → c ∈ get_global <$> nd_items nd groups) ∧
  (∀ c, in_box c rounded → c ∈ get_global <$> nd_items nd groups).
Proof.
  intros HG HL Hwf groups rounded. subst groups rounded.
  set (groups := zip_with ceil_div (GlobalRange nd) (LocalRange nd)).
  assert (Hlen : length groups = D) by (unfold groups; rewrite length_zip_with; lia).
  assert (Hslot : ∀ i l c, LocalRange nd !! i = Some l → groups !! i = Some c →
            ∃ g, GlobalRange nd !! i = Some g ∧ 0 ≤ g ∧ 0 < l ∧
                 g + l ≤ Int.INTPTR_MAX ∧ c = ceil_div g l ∧
                 l * (c - 1) < g ≤ l * c).
  { intros i l c Hl (g & l' & -> & Hg & Hl')%lookup_zip_with_Some.
    assert (l' = l) as -> by congruence.
    destruct (Forall2_lookup_lr _ _ _ _ _ _ Hwf Hg Hl) as (? & ? & ?).
    exists g. split_and!; try done; by apply ceil_div_bounds. }
  assert (Hfits : Forall2 (λ l c, 0 < l ∧ l * c ≤ Int.INTPTR_MAX)
                    (LocalRange nd) groups).
  { apply Forall2_same_length_lookup_2; [lia|]. intros i l c Hl Hc.
    destruct (Hslot i l c Hl Hc) as (g & _ & ? & ? & ? & _ & ?). split; [done|nia]. }
  assert (Hnonneg : Forall2 (λ l c, 0 < l ∧ 0 ≤ c) (LocalRange nd) groups).
  { apply Forall2_same_length_lookup_2; [lia|]. intros i l c Hl Hc.
    destruct (Hslot i l c Hl Hc) as (g & _ & ? & ? & ? & _ & ?). split; [done|nia]. }
  assert (Hfold : ∀ K' (kern' : item → K' → K') (k' : K'),
    parallel_for_nd D nd kern' k'
    = Some (foldl (λ k it, kern' it k) k' (nd_items nd groups))).
  { intros K' kern' k'. unfold parallel_for_nd, get_group_range.
    rewrite (range_div_ceil D) by done. simpl. fold groups.
    rewrite (iterate_groups_any_count D nd kern' groups); try done;
      apply length_replicate. }
  pose proof (nd_items_tile_any_count nd groups Hnonneg) as Htile.
  assert (Hle : Forall2 (λ g c, g ≤ c) (GlobalRange nd)
                  (zip_with Z.mul (LocalRange nd) groups)).
  { apply Forall2_same_length_lookup_2; [rewrite length_zip_with; lia|].
    intros i g c Hg (l & q & -> & Hl & Hq)%lookup_zip_with_Some.
    destruct (Hslot i l q Hl Hq) as (g' & Hg' & _ & _ & _ & _ & ?).
    assert (g' = g) as -> by congruence. lia. }
  split_and!.
  - apply Hfold.
  - rewrite Hfold. by rewrite foldl_snoc_id.
  - by symmetry.
  - done.
  - intros c Hc. rewrite <- Htile. apply elem_of_coordinates.
    unfold in_box in *.
    apply Forall2_same_length_lookup_2.
    { rewrite (Forall2_length _ _ _ Hc), length_zip_with. lia. }
    intros i x m Hx Hm.
    destruct (Forall2_lookup_l _ _ _ _ _ Hc Hx) as (g & Hg & ?).
    pose proof (Forall2_lookup_lr _ _ _ _ _ _ Hle Hg Hm). simpl in *. lia.
  - intros c Hc. rewrite <- Htile. by apply elem_of_coordinates.
Qed.

Lemma parallel_for_nd_rounds_up_witness :
  (λ t : list item, get_global <$> t) <$>
    parallel_for_nd 1 (make_nd_range 1 [5] [2] None) (λ it t, t ++ [it]) []
  = Some [[0]; [1]; [2]; [3]; [4]; [5]].
Proof.
  rewrite (proj1 (proj2 (parallel_for_nd_rounds_up
    (K := list item) 1 (make_nd_range 1 [5] [2] None)
    (λ it t, t ++ [it]) [] eq_refl eq_refl
    ltac:(repeat constructor; try lia; by vm_compute)))).
  reflexivity.
Defined.

(** ** Grouped launch: the offset is never read *)

Section IterateRel.

Context {St1 St2 : Type}.
Variable D : nat.
Variable r : list Z.
Variable get1 : St1 → list Z.
Variable set1 : list Z → St1 → St1.
Variable f1 : list Z → St1 → option St1.
Variable get2 : St2 → list Z.
Variable set2 : list Z → St2 → St2.
Variable f2 : list Z → St2 → option St2.
Variable Rel : St1 → St2 → Prop.

Hypothesis get_rel : ∀ s1 s2, Rel s1 s2 → get1 s1 = get2 s2.
Hypothesis set_rel : ∀ i s1 s2, Rel s1 s2 → Rel (set1 i s1) (set2 i s2).
Hypothesis f_rel : ∀ c s1 s2,
  Rel s1 s2 → option_Forall2 Rel (f1 c s1) (f2 c s2).

Lemma for_index_rel (body1 : Z → St1 → option St1) (body2 : Z → St2 → option St2) :
  (∀ i s1 s2, Rel s1 s2 → option_Forall2 Rel (body1 i s1) (body2 i s2)) →
  ∀ n i s1 s2, Rel s1 s2 →
    option_Forall2 Rel (for_index n i body1 s1) (for_index n i body2 s2).
Proof.
  intros Hbody. induction n as [|n IH]; intros i s1 s2 HR; simpl.
  - by constructor.
  - destruct (Hbody i s1 s2 HR) as [s1' s2' HR'|]; simpl.
    + by apply IH.
    + constructor.
Qed.

(** Two runs of the iterator over the same range stay related when their
    functors keep the states related. *)
Lemma ParallelForIterate_rel level : ∀ s1 s2,
  Rel s1 s2 →
  option_Forall2 Rel (ParallelForIterate D r get1 set1 f1 level s1)
                     (ParallelForIterate D r get2 set2 f2 level s2).
Proof.
  induction level as [|l IH]; intros s1 s2 HR.
  - simpl. rewrite (get_rel s1 s2 HR). by apply f_rel.
  - cbn [ParallelForIterate].
    destruct (r !! (D - S l)%nat) as [e|]; [|constructor].
    cbn [mbind option_bind]. apply for_index_rel; [|done].
    intros i t1 t2 Ht. rewrite (get_rel t1 t2 Ht).
    destruct (vec_set _ _ _); [|constructor]. cbn [mbind option_bind].
    apply IH. by apply set_rel.
Qed.

End IterateRel.

(** X10.  The grouped launch never reads the offset of its nd_range:
    for a kernel that looks at the global and local coordinates of its
    item, two nd_ranges with the same global and local sizes give the same
    result whatever their offsets are, also where the launch is undefined. *)
Theorem parallel_for_nd_ignores_offset {K} (D : nat) (G L : list Z)
    (offset1 offset2 : option (list Z)) (kern : list Z → list Z → K → K) (k : K) :
  parallel_for_nd D (make_nd_range D G L offset1)
    (λ it, kern (get_global it) (get_local it)) k
  = parallel_for_nd D (make_nd_range D G L offset2)
    (λ it, kern (get_global it) (get_local it)) k.
Proof.
  unfold parallel_for_nd, get_group_range. simpl.
  destruct (range_div D G L) as [groups|]; [|done]. simpl.
  set (Rel := λ s1 s2 : launch_state K,
         Group s1 = Group s2 ∧ Local s1 = Local s2 ∧
         kernel_state s1 = kernel_state s2).
  assert (H : option_Forall2 Rel
    (iterate_groups D (λ it, kern (get_global it) (get_local it)) groups L
       {| Index := make_item D (make_nd_range D G L offset1);
          Group := range_default D; Local := range_default D;
          kernel_state := k |})
    (iterate_groups D (λ it, kern (get_global it) (get_local it)) groups L
       {| Index := make_item D (make_nd_range D G L offset2);
          Group := range_default D; Local := range_default D;
          kernel_state := k |})).
  { unfold iterate_groups. apply (ParallelForIterate_rel D groups).
    - by intros s1 s2 (? & ? & ?).
    - by intros i s1 s2 (? & ? & ?).
    - intros c s1 s2 HR. unfold iterateInWorkGroup.
      apply (ParallelForIterate_rel D L); [| | |done].
      + by intros t1 t2 (? & ? & ?).
      + by intros i t1 t2 (? & ? & ?).
      + intros c' t1 t2 (Hg & Hl & Hk). unfold reconstructItem.
        rewrite Hg, Hl. destruct (range_mul D L (Group t2)); [|constructor].
        simpl. destruct (range_add D (Local t2) _); [|constructor]. simpl.
        constructor. split_and!; simpl; try done. by rewrite Hk.
    - done. }
  destruct H as [s1 s2 (_ & _ & Hk)|]; simpl; [by rewrite Hk|done].
Qed.

(** ** Items *)

(** X11.  In a grouped launch whose global sizes are non-negative
    multiples of positive local sizes, every item handed to the kernel lies
    inside the ranges it reports itself: its local coordinate is inside
    [get_local_range()], its global coordinate inside
    [get_global_range()], and both ranges are those of the launch. *)
Theorem parallel_for_nd_items_in_range (D : nat) (nd : nd_range) :
  length (GlobalRange nd) = D → length (LocalRange nd) = D →
  Forall2 (λ g l, 0 < l ∧ 0 ≤ g ∧ (l | g) ∧ g + l ≤ Int.INTPTR_MAX)
    (GlobalRange nd) (LocalRange nd) →
  ∃ trace,
    parallel_for_nd D nd (λ it t, t ++ [it]) [] = Some trace ∧
    Forall (λ it, in_box (get_local it) (item_get_local_range it) ∧
                   in_box (get_global it) (item_get_global_range it) ∧
                   item_get_local_range it = LocalRange nd ∧
                   item_get_global_range it = GlobalRange nd) trace.
Proof.
  intros HG HL Hwf. eexists. split.
  - rewrite (parallel_for_nd_fold D nd) by done. by rewrite foldl_snoc_id.
  - apply Forall_forall. intros it Hit.
    assert (Hglobal : get_global it ∈ coordinates (GlobalRange nd)).
    { rewrite (nd_items_tile nd Hwf). apply list_elem_of_fmap. eauto. }
    apply elem_of_coordinates in Hglobal.
    apply elem_of_nd_items in Hit as (G & L & _ & HLbox & HLeq & _ & Hnd).
    unfold item_get_local_range, item_get_global_range.
    rewrite Hnd, HLeq. by split_and!.
Qed.

Lemma parallel_for_nd_items_in_range_witness :
  ∃ trace,
    parallel_for_nd 2 (make_nd_range 2 [4; 6] [2; 3] None)
      (λ it t, t ++ [it]) [] = Some trace ∧
    Forall (λ it, in_box (get_local it) (item_get_local_range it) ∧
                   in_box (get_global it) (item_get_global_range it) ∧
                   item_get_local_range it = [2; 3] ∧
                   item_get_global_range it = [4; 6]) trace.
Proof.
  refine (parallel_for_nd_items_in_range 2
    (make_nd_range 2 [4; 6] [2; 3] None) eq_refl eq_refl _).
  repeat constructor; try lia; try (by exists 2); by vm_compute.
Defined.

Lemma to_int_small z : - 2 ^ 31 ≤ z < 2 ^ 31 → to_int z = z.
Proof.
  intros Hz. unfold to_int. rewrite Z.mod_small by lia. lia.
Qed.

Lemma to_int_range z : - 2 ^ 31 ≤ to_int z < 2 ^ 31.
Proof.
  unfold to_int. pose proof (Z.mod_pos_bound (z + 2 ^ 31) (2 ^ 32)). lia.
Qed.

Lemma to_int_congruent z : (to_int z - z) `mod` 2 ^ 32 = 0.
Proof.
  unfold to_int.
  replace ((z + 2 ^ 31) `mod` 2 ^ 32 - 2 ^ 31 - z)
    with ((z + 2 ^ 31) `mod` 2 ^ 32 - (z + 2 ^ 31)) by lia.
  rewrite Zminus_mod, Zmod_mod, <- Zminus_mod, Z.sub_diag. done.
Qed.

(** X12.  The getters of [item] that take a dimension return an [int]:
    for a subscript inside the index they give the stored component when
    it fits the 32-bit interval, and otherwise the 32-bit value congruent
    to it modulo [2^32], which differs from what [get_global()] holds; a
    negative subscript or one past the end is undefined. *)
Theorem item_indexed_getters (it : item) (dimension : Z) :
  (∀ x, 0 ≤ dimension → GlobalIndex it !! Z.to_nat dimension = Some x →
     get_global_at it dimension = Some (to_int x) ∧
     - 2 ^ 31 ≤ to_int x < 2 ^ 31 ∧
     (to_int x - x) `mod` 2 ^ 32 = 0 ∧
     (- 2 ^ 31 ≤ x < 2 ^ 31 ↔ get_global_at it dimension = get_global it !! Z.to_nat dimension)) ∧
  (∀ x, 0 ≤ dimension → LocalIndex it !! Z.to_nat dimension = Some x →
     get_local_at it dimension = Some (to_int x) ∧
     (- 2 ^ 31 ≤ x < 2 ^ 31 ↔ get_local_at it dimension = get_local it !! Z.to_nat dimension)) ∧
  (dimension < 0 ∨ Z.of_nat (length (GlobalIndex it)) ≤ dimension →
     get_global_at it dimension = None) ∧
  (dimension < 0 ∨ Z.of_nat (length (LocalIndex it)) ≤ dimension →
     get_local_at it dimension = None).
Proof.
  assert (Hsmall : ∀ x, - 2 ^ 31 ≤ x < 2 ^ 31 ↔ Some (to_int x) = Some x).
  { intros x. split.
    - intros Hx. by rewrite to_int_small.
    - intros [= Hx]. rewrite <- Hx. apply to_int_range. }
  assert (Hout : ∀ v : list Z, dimension < 0 ∨ Z.of_nat (length v) ≤ dimension →
            vec_get v dimension = None).
  { intros v [Hneg | Hge]; unfold vec_get.
    - by rewrite decide_False by lia.
    - rewrite decide_True by lia. apply lookup_ge_None. lia. }
  unfold get_global_at, get_local_at, get_global, get_local. split_and!.
  - intros x Hd Hx. unfold vec_get. rewrite decide_True, Hx by done. simpl.
    split; [done|]. split; [apply to_int_range|].
    split; [apply to_int_congruent|apply Hsmall].
  - intros x Hd Hx. unfold vec_get. rewrite decide_True, Hx by done. simpl.
    split; [done|apply Hsmall].
  - intros H. by rewrite Hout.
  - intros H. by rewrite Hout.
Qed.

Lemma item_indexed_getters_witness :
  let it := {| GlobalIndex := [2 ^ 31 + 5]; LocalIndex := [5];
               NDRange := make_nd_range 1 [2 ^ 32] [8] None |} in
  get_global_at it 0 = Some (- 2 ^ 31 + 5) ∧ get_local_at it 0 = Some 5 ∧
  get_global_at it 1 = None ∧ get_local_at it (-1) = None.
Proof.
  intros it.
  destruct (item_indexed_getters it 0) as (H1 & H2 & _ & _).
  destruct (item_indexed_getters it 1) as (_ & _ & H3 & _).
  destruct (item_indexed_getters it (-1)) as (_ & _ & _ & H4).
  split_and!.
  - exact (proj1 (H1 (2 ^ 31 + 5) ltac:(lia) eq_refl)).
  - exact (proj1 (H2 5 ltac:(lia) eq_refl)).
  - apply H3. right. simpl. lia.
  - apply H4. left. lia.
Defined.

(** ** Accessors and storage *)

Lemma subscripts_inside (indices : list Z) : ∀ (shape : list Z) (base p : pointer),
  subscripts (SubArray {| base_ := base; extent_list_ := shape;
                          stride_list_ := compute_strides shape |}) indices
    = Some (Element p) →
  offset base ≤ offset p < offset base + num_elements shape.
Proof.
  induction indices as [|i indices IH]; intros shape base p H; [done|].
  simpl in H. unfold subscript in H. simpl in H.
  destruct shape as [|e es]; [done|]. simpl in H.
  destruct (decide (0 ≤ i < e)); [|done]. simpl in H.
  destruct es as [|e' es'].
  - destruct indices; simplify_eq/=. unfold num_elements. simpl. lia.
  - apply IH in H. simpl in H.
    change (num_elements (e :: e' :: es')) with (e * (e' * num_elements es')).
    set (N := e' * num_elements es') in *. nia.
Qed.

(** X13.  Every element that an accessor over a view in C storage order
    can be made to refer to, by any of its indexing forms, lies inside the
    storage of the view; over live storage it can be read.  An index outside
    the shape gives no reference at all. *)
Theorem accessor_references_inside {T : Type} (acc : accessor) (p : pointer)
    (h : gmap nat (list T)) :
  c_storage_order (Array acc) →
  accessor_refers acc p →
  block p = block (base_ (Array acc)) ∧
  offset (base_ (Array acc)) ≤ offset p
    < offset (base_ (Array acc)) + num_elements (extent_list_ (Array acc)) ∧
  (live (Array acc) h → is_Some (load p h)).
Proof.
  intros Hc Hp.
  assert (Hin : offset (base_ (Array acc)) ≤ offset p
    < offset (base_ (Array acc)) + num_elements (extent_list_ (Array acc))).
  { destruct acc as [[base shape strides]]. unfold c_storage_order in Hc.
    simpl in *. subst strides.
    destruct Hp as [[Index H] | [[Index H] | [indices H]]].
    - unfold accessor_at_id, element in H. simpl in H.
      apply fmap_Some in H as (o & Ho%element_offset_bounds & ->). simpl. lia.
    - unfold accessor_at_item, element in H. simpl in H.
      apply fmap_Some in H as (o & Ho%element_offset_bounds & ->). simpl. lia.
    - by apply subscripts_inside in H. }
  pose proof (accessor_refers_block acc p Hp) as Hb.
  split_and!; [done|lia|lia|].
  intros (cells & Hcells & _ & Hbase & Hfit). unfold load.
  rewrite decide_True, Hb, Hcells by lia. simpl.
  apply lookup_lt_is_Some. lia.
Qed.

Lemma accessor_references_inside_witness :
  let acc := {| Array := {| base_ := {| block := 0; offset := 0 |};
                            extent_list_ := [2; 3];
                            stride_list_ := [3; 1] |} |} in
  let h : gmap nat (list Z) := {[ 0%nat := [10; 11; 12; 13; 14; 15] ]} in
  is_Some (load {| block := 0; offset := 4 |} h).
Proof.
  intros acc h.
  refine (proj2 (proj2 (accessor_references_inside acc
    {| block := 0; offset := 4 |} h eq_refl _)) _).
  - left. by exists [1; 1].
  - exists [10; 11; 12; 13; 14; 15]. split_and!; try done.
    repeat constructor; lia.
Defined.

Lemma row_major_offset_inj (shape c1 c2 : list Z) :
  in_box c1 shape → in_box c2 shape →
  row_major_offset shape c1 = row_major_offset shape c2 → c1 = c2.
Proof.
  unfold in_box. intros H1. revert c2.
  induction H1 as [|i1 e c1 shape Hi1 Hc1 IH]; intros c2 H2 Heq.
  - by apply Forall2_nil_inv_r in H2 as ->.
  - apply Forall2_cons_inv_r in H2 as (i2 & c2' & Hi2 & Hc2 & ->).
    rewrite !row_major_cons in Heq
      by (by eapply Forall2_length).
    destruct (element_offset_row_major shape c1 Hc1) as (_ & Hb1).
    destruct (element_offset_row_major shape c2' Hc2) as (_ & Hb2).
    assert (i1 = i2) as -> by nia.
    f_equal. apply IH; [done|lia].
Qed.

Section AccessorSpec.

Context {T : Type}.
Implicit Types (h : gmap nat (list T)).

Lemma load_store_eq (p : pointer) (v : T) h h' :
  store p v h = Some h' → load p h' = Some v.
Proof.
  unfold store. destruct (h !! block p) as [cells|] eqn:Hc; [|done]. simpl.
  destruct (decide _) as [Ho|]; [|done]. intros [= <-].
  rewrite load_insert_eq by (done || lia).
  apply list_lookup_insert_eq. lia.
Qed.

Lemma load_store_other (p q : pointer) (v : T) h h' :
  store p v h = Some h' → q ≠ p → 0 ≤ offset q → load q h' = load q h.
Proof.
  unfold store. destruct (h !! block p) as [cells|] eqn:Hc; [|done]. simpl.
  destruct (decide _) as [Ho|]; [|done]. intros [= <-] Hne Hq.
  destruct (decide (block q = block p)) as [Hb|Hb].
  - rewrite load_insert_eq by done. unfold load.
    rewrite decide_True, Hb, Hc by done. simpl.
    apply list_lookup_insert_ne. intros Heq.
    apply Hne. destruct p, q; simpl in *. f_equal; [done|lia].
  - by apply load_insert_ne.
Qed.

Lemma store_keeps_live (a : multi_array_ref) (p : pointer) (v : T) h h' :
  store p v h = Some h' → live a h → live a h'.
Proof.
  unfold store. destruct (h !! block p) as [cells|] eqn:Hc; [|done]. simpl.
  destruct (decide _) as [Ho|]; [|done]. intros [= <-].
  intros (cells' & Hcells' & ? & ? & ?).
  destruct (decide (block (base_ a) = block p)) as [Hb|Hb].
  - rewrite Hb, Hc in Hcells'. simplify_eq.
    eexists. rewrite Hb, lookup_insert_eq. split_and!; try done.
    by rewrite length_insert.
  - exists cells'. rewrite lookup_insert_ne by done. by split_and!.
Qed.

(** X14.  Over live storage in C storage order, a write through an
    accessor at an in-bounds coordinate is defined; the same coordinate
    then reads the written value, every other in-bounds coordinate reads
    what it read before, and the storage stays live. *)
Theorem accessor_write_read (acc : accessor) (c : list Z) (v : T) h :
  c_storage_order (Array acc) → live (Array acc) h →
  in_box c (extent_list_ (Array acc)) →
  ∃ h', write_at_id acc c v h = Some h' ∧
        read_at_id acc c h' = Some v ∧
        (∀ c', in_box c' (extent_list_ (Array acc)) → c' ≠ c →
               read_at_id acc c' h' = read_at_id acc c' h) ∧
        live (Array acc) h'.
Proof.
  intros Hc Hlive Hbox.
  destruct (element_offset_row_major _ _ Hbox) as (Ho & Hob).
  pose proof Hlive as (cells & Hcells & Hext & Hbase & Hfit).
  set (p := pointer_add (base_ (Array acc))
              (row_major_offset (extent_list_ (Array acc)) c)).
  assert (Hp : accessor_at_id acc c = Some p).
  { unfold accessor_at_id, element. by rewrite Hc, Ho. }
  assert (Hst : is_Some (store p v h)).
  { rewrite (store_live p v h cells); [eauto|done|simpl; lia]. }
  destruct Hst as [h' Hh']. exists h'.
  unfold write_at_id, read_at_id. rewrite Hp. simpl. split_and!.
  - done.
  - by eapply load_store_eq.
  - intros c' Hbox' Hne.
    destruct (element_offset_row_major _ _ Hbox') as (Ho' & Hob').
    unfold accessor_at_id, element. rewrite Hc, Ho'. simpl.
    eapply load_store_other; [exact Hh'| |simpl; lia].
    unfold p, pointer_add. intros [= Heq]. apply Hne.
    apply (row_major_offset_inj (extent_list_ (Array acc))); [done..|lia].
  - by eapply store_keeps_live.
Qed.

End AccessorSpec.

Lemma accessor_write_read_witness :
  let acc := {| Array := {| base_ := {| block := 0; offset := 0 |};
                            extent_list_ := [2; 3];
                            stride_list_ := [3; 1] |} |} in
  let h : gmap nat (list Z) := {[ 0%nat := [10; 11; 12; 13; 14; 15] ]} in
  ∃ h', write_at_id acc [1; 1] 99 h = Some h' ∧
        read_at_id acc [1; 1] h' = Some 99.
Proof.
  intros acc h.
  destruct (accessor_write_read acc [1; 1] 99 h) as (h' & H1 & H2 & _).
  - reflexivity.
  - exists [10; 11; 12; 13; 14; 15]. split_and!; try done.
    repeat constructor; lia.
  - repeat constructor; lia.
  - exists h'. split; [exact H1|exact H2].
Defined.


(** ** Buffer constructors *)

Section BufferSpec.

Context {T : Type}.
Implicit Types (h : gmap nat (list T)).


(** What holds of a view made over host storage. *)
Lemma host_view (dimensions : nat) (host_data : pointer) (r : list Z)
    (cells : list T) h (view : multi_array_ref) :
  length r = dimensions → Forall (λ e, 0 ≤ e) r →
  h !! block host_data = Some cells →
  0 ≤ offset host_data →
  offset host_data + num_elements r ≤ Z.of_nat (length cells) →
  make_multi_array_ref dimensions host_data r = Some view →
  base_ view = host_data ∧ extent_list_ view = r ∧
  c_storage_order view ∧ live view h ∧
  (∀ c, in_box c r →
     read_at_id {| Array := view |} c h
     = cells !! Z.to_nat (offset host_data + row_major_offset r c)) ∧
  (∀ c v, in_box c r →
     ∃ h'', write_at_id {| Array := view |} c v h = Some h'' ∧
            load (pointer_add host_data (row_major_offset r c)) h'' = Some v ∧
            h'' !! block host_data
              = Some (<[Z.to_nat (offset host_data + row_major_offset r c) := v]> cells)).
Proof.
  intros Hlen Hr Hcells Hbase Hfit. unfold make_multi_array_ref.
  rewrite decide_True by lia. rewrite <- Hlen, firstn_all. intros [= <-].
  simpl. split_and!; try done.
  - exists cells. by split_and!.
  - intros c Hc. unfold read_at_id, accessor_at_id, element. simpl.
    destruct (element_offset_row_major r c Hc) as (-> & Hb). simpl.
    unfold load. simpl. by rewrite decide_True, Hcells by lia.
  - intros c v Hc. unfold write_at_id, accessor_at_id, element. simpl.
    destruct (element_offset_row_major r c Hc) as (-> & Hb). simpl.
    rewrite (store_live _ v h cells) by (simpl; (done || lia)). simpl.
    eexists. split; [done|]. split.
    + rewrite load_insert_eq by (simpl; (done || lia)). simpl.
      apply list_lookup_insert_eq. lia.
    + by rewrite lookup_insert_eq.
Qed.

Lemma multi_array_empty_keeps (dimensions : nat) h (a : multi_array_ref) h' :
  multi_array_empty dimensions h = (a, h') →
  ∀ b cells, h !! b = Some cells → h' !! b = Some cells.
Proof.
  unfold multi_array_empty, allocate. intros [= <- <-] b cells Hb.
  rewrite lookup_insert_ne; [done|]. intros <-.
  by rewrite fresh_block_unused in Hb.
Qed.

(** X16.  A buffer made from a host pointer and a range wraps the host
    storage without copying it: an in-bounds coordinate reads the host
    element at its row-major offset, and a write through the accessor
    lands in the host block, where the host pointer sees it. *)
Theorem buffer_of_host_wraps (dimensions : nat) (host_data : pointer)
    (r : list Z) (cells : list T) h :
  length r = dimensions → Forall (λ e, 0 ≤ e) r →
  h !! block host_data = Some cells →
  0 ≤ offset host_data →
  offset host_data + num_elements r ≤ Z.of_nat (length cells) →
  ∃ b h', buffer_of_host dimensions host_data r h = Some (b, h') ∧
    base_ (Access b) = host_data ∧
    ReadOnly b = Some false ∧
    h' !! block host_data = Some cells ∧
    (∀ c, in_box c r →
       read_at_id (get_access b) c h'
       = cells !! Z.to_nat (offset host_data + row_major_offset r c)) ∧
    (∀ c v, in_box c r →
       ∃ h'', write_at_id (get_access b) c v h' = Some h'' ∧
              load (pointer_add host_data (row_major_offset r c)) h'' = Some v).
Proof.
  intros Hlen Hr Hcells Hbase Hfit. unfold buffer_of_host.
  destruct (multi_array_empty dimensions h) as [a h'] eqn:Ha.
  pose proof (multi_array_empty_keeps _ _ _ _ Ha _ _ Hcells) as Hcells'.
  destruct (make_multi_array_ref dimensions host_data r) as [view|] eqn:Hv.
  2:{ unfold make_multi_array_ref in Hv. by rewrite decide_True in Hv by lia. }
  destruct (host_view dimensions host_data r cells h' view)
    as (Hb & _ & _ & _ & Hread & Hwrite); try done.
  simpl. eexists _, _. split; [done|]. simpl. split_and!; try done.
  intros c v Hc. destruct (Hwrite c v Hc) as (h'' & ? & ? & _). eauto.
Qed.

End BufferSpec.


Lemma buffer_of_host_wraps_witness :
  ∃ b h', buffer_of_host 2 {| block := 0; offset := 0 |} [2; 3]
            ({[ 0%nat := [10; 11; 12; 13; 14; 15] ]} : gmap nat (list Z))
          = Some (b, h') ∧
          base_ (Access b) = {| block := 0; offset := 0 |} ∧
          ReadOnly b = Some false.
Proof.
  destruct (buffer_of_host_wraps (T := Z) 2 {| block := 0; offset := 0 |} [2; 3]
    [10; 11; 12; 13; 14; 15] {[ 0%nat := [10; 11; 12; 13; 14; 15] ]} eq_refl)
    as (b & h' & H1 & H2 & H3 & _).
  - repeat constructor; lia.
  - reflexivity.
  - simpl. lia.
  - by vm_compute.
  - exists b, h'. split; [exact H1|]. split; [exact H2|exact H3].
Defined.




(** ** Access modes and targets *)

(** X19.  The enumerators of [access::mode] have the values 42 to 46 and
    those of [access::target] the values 2014 to 2022, all different; no
    mode has the value of the sum of two modes, so [read_write] is not
    [read + write], and no mode shares a value with a target. *)
Theorem access_enumerator_values :
  (∀ m1 m2, access.mode_value m1 = access.mode_value m2 → m1 = m2) ∧
  (∀ t1 t2, access.target_value t1 = access.target_value t2 → t1 = t2) ∧
  (∀ m, 42 ≤ access.mode_value m ≤ 46) ∧
  (∀ t, 2014 ≤ access.target_value t ≤ 2022) ∧
  (∀ m1 m2 m3,
     access.mode_value m1 + access.mode_value m2 ≠ access.mode_value m3) ∧
  (∀ m t, access.mode_value m ≠ access.target_value t).
Proof.
  split_and!.
  - by intros [] [].
  - by intros [] [].
  - by intros []; simpl; lia.
  - by intros []; simpl; lia.
  - by intros [] [] [].
  - by intros [] [].
Qed.
